(** * Column renamer scripts: a shallow embedding and its properties

    The repository holds two maintenance scripts that rewrite quoted
    camelCase SQL column names into snake_case names in a fixed list of
    Go source files:

    - [backend/fix-handlers-snake-case.py] replaces over the whole file
      (the unrestricted variant, module [FixHandlers]);
    - [backend/update_sql_columns.py] replaces only inside backtick
      quoted strings (the delimited variant, module [UpdateSql]).

    Python [str] values are modelled as lists of characters.  The tokens
    of both tables are ASCII, and the byte of an ASCII character never
    occurs inside the UTF-8 encoding of another character, so counting,
    replacing and the backtick pattern behave the same on code points and
    on UTF-8 bytes; [ascii] characters are used throughout.

    The file system and the console are modelled by explicit state passing
    through a small state-and-exception monad.  The scripts are written
    for a POSIX system (the interpreter line, the shell loop they print for
    restoring the backups): files are opened in text mode, where reading
    turns every CR LF and every CR into LF and writing writes the
    characters as they are.  The files hold text the locale's encoding
    decodes and encodes back to the same bytes; a file that cannot be
    decoded is a file that cannot be read.  Printing does not fail and no
    signal interrupts a run. *)

From stdpp Require Import gmap strings list.
From Stdlib Require Import Ascii Permutation.

(* ===================================================================== *)
(** * Part I: definitions *)
(* ===================================================================== *)

(** ** Python strings *)

Abbreviation text := (list ascii).

Definition txt (s : string) : text := String.list_ascii_of_string s.

Definition dquote : ascii := "034"%char.
Definition backtick : ascii := "`"%char.
Definition underscore : ascii := "_"%char.
Definition CR : ascii := "013"%char.
Definition LF : ascii := "010"%char.

(** ['"name"'], a Python literal whose first and last characters are
    double quotes. *)
Definition quoted (name : string) : text := dquote :: txt name ++ [dquote].

(** [s.startswith(p)] *)
Fixpoint startswith (p s : text) : bool :=
  match p, s with
  | [], _ => true
  | _ :: _, [] => false
  | a :: p', b :: s' => Ascii.eqb a b && startswith p' s'
  end.

(** [s.count(sub)] counts the non-overlapping occurrences of [sub], found
    from the left.  After a match at a position the scan resumes behind the
    match: [skip] is the number of characters of the current match that are
    still to be stepped over. *)
Fixpoint count_from (sub : text) (skip : nat) (s : text) : nat :=
  match s with
  | [] => 0
  | _ :: s' =>
      match skip with
      | S k => count_from sub k s'
      | O =>
          if startswith sub s
          then S (count_from sub (length sub - 1) s')
          else count_from sub 0 s'
      end
  end.

Definition str_count (s sub : text) : nat :=
  match sub with
  | [] => S (length s)
  | _ :: _ => count_from sub 0 s
  end.

(** [s.replace(old, new)] replaces the same occurrences that [count]
    counts. *)
Fixpoint replace_from (old new : text) (skip : nat) (s : text) : text :=
  match s with
  | [] => []
  | c :: s' =>
      match skip with
      | S k => replace_from old new k s'
      | O =>
          if startswith old s
          then new ++ replace_from old new (length old - 1) s'
          else c :: replace_from old new 0 s'
      end
  end.

Definition str_replace (s old new : text) : text :=
  match old with
  | [] => new ++ flat_map (fun c => c :: new) s
  | _ :: _ => replace_from old new 0 s
  end.

(** ** The replacement pass shared by both scripts

    The body of the loop over the mapping table: count, and when the count
    is positive replace and add the count to the running total. *)
Definition replace_step (acc : text * nat) (entry : text * text) : text * nat :=
  let '(updated, replacements_made) := acc in
  let '(old_name, new_name) := entry in
  let count := str_count updated old_name in
  if 0 <? count
  then (str_replace updated old_name new_name, replacements_made + count)
  else (updated, replacements_made).

Definition apply_mappings (m : list (text * text)) (acc : text * nat) : text * nat :=
  fold_left replace_step m acc.

(** ** The file system, the console and exceptions *)

Inductive exn :=
| FileNotFoundError
| OtherException (msg : string)
| SystemExit (code : nat).

(** The lines the scripts print, with the values they interpolate. *)
Inductive line :=
| Processing (filepath : string)
| Replaced (old_name new_name : text) (count : nat)
| Updated (filepath : string) (replacements_made : nat)
| WarningNotFound (filepath : string)
| ErrorProcessing (filepath : string) (e : exn)
| WarningSkipping
| Made (count : nat)
| Complete (total : nat)
| BackupNote
| VerifyHint
| RestoreHint.

(** What the run did to the files and the console.  [WriteFailed]: the
    file was opened for writing, which emptied it, and holds [written]
    when the exception is raised. *)
Inductive event :=
| Printed (l : line)
| Read (filepath : string)
| Wrote (filepath : string) (content : text)
| WriteFailed (filepath : string) (written : text)
| Traceback (e : exn).

(** The ways [with open(path, 'w') as f: f.write(content)] fails: [open]
    raises [FileNotFoundError] (a directory of the path is missing, the
    path is a symbolic link to such a path); [open] raises another error
    (no permission, a directory in the way); or the file is opened, and so
    emptied, and the error comes while the content is written or when the
    file is closed, with the first [written] characters in the file (a full
    disk, an I/O error). *)
Inductive write_failure :=
| OpenNotFound
| OpenFails (msg : string)
| WriteFails (written : nat) (msg : string).

(** A world holds the files by path with the characters they hold, the
    failure that reading a path that exists will meet, with its message (no
    permission, a directory, a file that cannot be decoded, an I/O error),
    the failure that writing a path will meet, and the history of what the
    run did, oldest first.  A path without a file is a path that [open]
    does not find for reading. *)
Record world := World {
  files : gmap string text;
  read_fault : string → option string;
  write_fault : string → option write_failure;
  log : list event
}.

Inductive result (A : Type) :=
| Ok (a : A)
| Raise (e : exn).
Arguments Ok {A} a.
Arguments Raise {A} e.

Definition io (A : Type) := world → result A * world.

Definition ret {A} (a : A) : io A := fun w => (Ok a, w).

Definition bind {A B} (c : io A) (k : A → io B) : io B :=
  fun w => match c w with
           | (Ok a, w') => k a w'
           | (Raise e, w') => (Raise e, w')
           end.

Definition raise {A} (e : exn) : io A := fun w => (Raise e, w).

(** [try: c except ...: h e] *)
Definition try_except {A} (c : io A) (h : exn → io A) : io A :=
  fun w => match c w with
           | (Ok a, w') => (Ok a, w')
           | (Raise e, w') => h e w'
           end.

Global Instance io_ret : MRet io := @ret.
Global Instance io_bind : MBind io := λ A B k c, bind c k.

Definition record (e : event) (w : world) : world :=
  World (files w) (read_fault w) (write_fault w) (log w ++ [e]).

Definition print (l : line) : io unit := fun w => (Ok tt, record (Printed l) w).

(** Reading in text mode (universal newlines): every CR LF and every
    other CR is read as LF. *)
Fixpoint universal_newlines (s : text) : text :=
  match s with
  | [] => []
  | c :: s' =>
      if Ascii.eqb c CR then
        LF :: match s' with
              | [] => []
              | c' :: s'' =>
                  if Ascii.eqb c' LF then universal_newlines s''
                  else universal_newlines s'
              end
      else c :: universal_newlines s'
  end.

(** [with open(path, 'r') as f: content = f.read()] *)
Definition read_file (path : string) : io text :=
  fun w => match files w !! path with
           | None => (Raise FileNotFoundError, w)
           | Some content =>
               match read_fault w path with
               | Some msg => (Raise (OtherException msg), w)
               | None => (Ok (universal_newlines content), record (Read path) w)
               end
           end.

(** The world in which [path] holds [data], with one more event. *)
Definition store (path : string) (data : text) (e : event) (w : world) : world :=
  World (<[path := data]> (files w)) (read_fault w) (write_fault w) (log w ++ [e]).

(** [with open(path, 'w') as f: f.write(content)] *)
Definition write_file (path : string) (content : text) : io unit :=
  fun w => match write_fault w path with
           | Some OpenNotFound => (Raise FileNotFoundError, w)
           | Some (OpenFails msg) => (Raise (OtherException msg), w)
           | Some (WriteFails written msg) =>
               (Raise (OtherException msg),
                store path (take written content)
                  (WriteFailed path (take written content)) w)
           | None => (Ok tt, store path content (Wrote path content) w)
           end.

(** [f"{filepath}.bak"] *)
Definition bak (filepath : string) : string := filepath +:+ ".bak".

(** What the interpreter does with the outcome of [main()]: exit status 0
    on return, the code of a [SystemExit], and for any other exception a
    traceback with the exception's message on the error stream and
    status 1. *)
Definition run_script (main : io unit) (w : world) : nat * world :=
  match main w with
  | (Ok _, w') => (0, w')
  | (Raise (SystemExit code), w') => (code, w')
  | (Raise e, w') => (1, record (Traceback e) w')
  end.

(** The three handler files both scripts name. *)
Definition handler_files : list string :=
  [ "internal/handlers/handlers.go"%string;
    "internal/handlers/scheduled_posts_worker.go"%string;
    "internal/handlers/realtime_ws.go"%string ].

(** ** backend/fix-handlers-snake-case.py *)

Module FixHandlers.

(** The dict, in insertion order (the order [items()] iterates in). *)
Definition COLUMN_MAPPINGS : list (text * text) :=
  [ (quoted "teamId", txt "team_id");
    (quoted "userId", txt "user_id");
    (quoted "scheduledFor", txt "scheduled_for");
    (quoted "publishedAt", txt "published_at");
    (quoted "createdAt", txt "created_at");
    (quoted "updatedAt", txt "updated_at");
    (quoted "lastPublishJobId", txt "last_publish_job_id");
    (quoted "lastPublishStatus", txt "last_publish_status");
    (quoted "lastPublishError", txt "last_publish_error");
    (quoted "lastPublishAttemptAt", txt "last_publish_attempt_at");
    (quoted "providerId", txt "provider_id");
    (quoted "imageUrl", txt "image_url") ].

(** One turn of the loop of [update_file]; it prints when it replaced. *)
Definition replace_and_report (acc : text * nat) (entry : text * text) : io (text * nat) :=
  let '(updated_content, replacements_made) := acc in
  let '(old_name, new_name) := entry in
  let count := str_count updated_content old_name in
  if 0 <? count
  then (print (Replaced old_name new_name count) ;;
        ret (str_replace updated_content old_name new_name, replacements_made + count))
  else ret (updated_content, replacements_made).

Fixpoint replace_loop (m : list (text * text)) (acc : text * nat) : io (text * nat) :=
  match m with
  | [] => ret acc
  | entry :: m' => (acc' ← replace_and_report acc entry; replace_loop m' acc')
  end.

Definition update_file_with (m : list (text * text)) (filepath : string) : io nat :=
  (print (Processing filepath) ;;
   content ← read_file filepath;
   write_file (bak filepath) content ;;
   r ← replace_loop m (content, 0);
   write_file filepath (fst r) ;;
   print (Updated filepath (snd r)) ;;
   ret (snd r)).

Definition update_file : string → io nat := update_file_with COLUMN_MAPPINGS.

(** The body of the loop of [main]: the [try] statement. *)
Definition try_update (filepath : string) (total_replacements : nat) : io nat :=
  try_except
    (count ← update_file filepath; ret (total_replacements + count))
    (fun e =>
       match e with
       | FileNotFoundError =>
           print (WarningNotFound filepath) ;; ret total_replacements
       | OtherException _ =>
           print (ErrorProcessing filepath e) ;; raise (SystemExit 1)
       | SystemExit _ => raise e
       end).

Fixpoint main_loop (todo : list string) (total_replacements : nat) : io nat :=
  match todo with
  | [] => ret total_replacements
  | filepath :: todo' =>
      (total ← try_update filepath total_replacements; main_loop todo' total)
  end.

Definition main : io unit :=
  (total ← main_loop handler_files 0;
   print (Complete total) ;;
   print BackupNote ;;
   print VerifyHint ;;
   print RestoreHint).

End FixHandlers.

(** ** backend/update_sql_columns.py *)

Module UpdateSql.

Definition REPLACEMENTS : list (text * text) :=
  [ (quoted "teamId", txt "team_id");
    (quoted "userId", txt "user_id");
    (quoted "providerId", txt "provider_id");
    (quoted "scheduledFor", txt "scheduled_for");
    (quoted "publishedAt", txt "published_at");
    (quoted "createdAt", txt "created_at");
    (quoted "updatedAt", txt "updated_at");
    (quoted "lastPublishJobId", txt "last_publish_job_id");
    (quoted "lastPublishStatus", txt "last_publish_status");
    (quoted "lastPublishError", txt "last_publish_error");
    (quoted "lastPublishAttemptAt", txt "last_publish_attempt_at");
    (quoted "imageUrl", txt "image_url") ].

(** The attempt to match the rest of the pattern after an opening
    backtick: the longest run of characters other than a backtick, which a
    backtick has to follow.  Giving characters back cannot help, the next
    one would not be a backtick. *)
Fixpoint match_body (s : text) : option text :=
  match s with
  | [] => None
  | c :: s' =>
      if Ascii.eqb c backtick then Some []
      else match match_body s' with
           | Some sql => Some (c :: sql)
           | None => None
           end
  end.

(** [re.finditer]: try the pattern at each position from the left; after a
    match, go on behind it ([skip] characters of it are still ahead). *)
Fixpoint finditer_from (skip pos : nat) (s : text) : list (nat * nat * text) :=
  match s with
  | [] => []
  | c :: s' =>
      match skip with
      | S k => finditer_from k (S pos) s'
      | O =>
          if Ascii.eqb c backtick then
            match match_body s' with
            | Some sql =>
                (pos, pos + length sql + 2, sql)
                  :: finditer_from (S (length sql)) (S pos) s'
            | None => finditer_from 0 (S pos) s'
            end
          else finditer_from 0 (S pos) s'
      end
  end.

Definition extract_sql_queries (content : text) : list (nat * nat * text) :=
  finditer_from 0 0 content.

(** One turn of the outer loop of [update_sql_in_content]. *)
Definition update_query (m : list (text * text)) (acc : text * nat)
    (query : nat * nat * text) : text * nat :=
  let '(content, replacements_made) := acc in
  let '(start, end_, sql) := query in
  let '(updated_sql, replacements_made) := apply_mappings m (sql, replacements_made) in
  if bool_decide (updated_sql ≠ sql)
  then (take start content ++ backtick :: updated_sql ++ backtick :: drop end_ content,
        replacements_made)
  else (content, replacements_made).

Definition update_sql_in_content_with (m : list (text * text)) (content : text) : text * nat :=
  let queries := rev (extract_sql_queries content) in
  fold_left (update_query m) queries (content, 0).

Definition update_sql_in_content : text → text * nat :=
  update_sql_in_content_with REPLACEMENTS.

Definition process_file (filepath : string) : io nat :=
  (print (Processing filepath) ;;
   r ← try_except
         (content ← read_file filepath; ret (Some content))
         (fun e =>
            match e with
            | FileNotFoundError => print WarningSkipping ;; ret None
            | _ => raise e
            end);
   match r with
   | None => ret 0
   | Some content =>
       write_file (bak filepath) content ;;
       let '(updated_content, count) := update_sql_in_content content in
       write_file filepath updated_content ;;
       print (Made count) ;;
       ret count
   end).

Fixpoint main_loop (todo : list string) (total : nat) : io nat :=
  match todo with
  | [] => ret total
  | filepath :: todo' =>
      (count ← process_file filepath; main_loop todo' (total + count))
  end.

Definition main : io unit :=
  (total ← main_loop handler_files 0;
   print (Complete total) ;;
   print BackupNote ;;
   print VerifyHint ;;
   print RestoreHint).

End UpdateSql.

Definition example_in : text :=
  txt "SELECT " ++ quoted "userId" ++ txt ", " ++ quoted "teamId" ++ txt " FROM posts".
Definition example_out : text := txt "SELECT user_id, team_id FROM posts".

(** ** Notions the properties are stated with *)

(** [t] occurs in [s] at offset [i]: [s[i:i+len(t)] == t]. *)
Definition occurs_at (t : text) (i : nat) (s : text) : Prop :=
  ∃ a b, s = a ++ t ++ b ∧ length a = i.

Definition occurs (t s : text) : Prop := ∃ a b, s = a ++ t ++ b.

(** No old token of the table occurs in the text. *)
Definition token_free (m : list (text * text)) (s : text) : Prop :=
  ∀ old new, (old, new) ∈ m → ¬ occurs old s.

(** No two occurrences of old tokens of the table overlap: an occurrence
    that starts behind the start of another starts behind its end. *)
Definition overlap_free (m : list (text * text)) (s : text) : Prop :=
  ∀ i j o1 n1 o2 n2,
    (o1, n1) ∈ m → (o2, n2) ∈ m →
    occurs_at o1 i s → occurs_at o2 j s → i < j → i + length o1 ≤ j.

(** What the loop of [update_file] prints for a table and a start: one
    line for each entry that is found when its turn comes. *)
Fixpoint report (m : list (text * text)) (acc : text * nat) : list event :=
  match m with
  | [] => []
  | (old_name, new_name) :: m' =>
      (if 0 <? str_count acc.1 old_name
       then [Printed (Replaced old_name new_name (str_count acc.1 old_name))]
       else [])
      ++ report m' (replace_step acc (old_name, new_name))
  end.

(** The world with more history. *)
Definition logged (w : world) (events : list event) : world :=
  World (files w) (read_fault w) (write_fault w) (log w ++ events).

(** A loop over the listed files, as both [main]s have it. *)
Fixpoint for_each (body : string → nat → io nat) (todo : list string)
    (total : nat) : io nat :=
  match todo with
  | [] => ret total
  | filepath :: todo' => t ← body filepath total; for_each body todo' t
  end.

(** The body of the loop of [main] in the second script. *)
Definition add_count (filepath : string) (total : nat) : io nat :=
  count ← UpdateSql.process_file filepath; ret (total + count).

(** A list of files in which no path occurs twice and no path is the
    backup of another. *)
Definition separate (l : list string) : Prop :=
  NoDup l ∧ ∀ f g, f ∈ l → g ∈ l → g ≠ bak f.

(** What one turn of a loop does to the files, for a pass [pass]: it leaves
    the failures and every file but the listed one and its backup alone; a
    listed file that is missing is passed over with no file changed; a
    listed file that exists is left as it is, or its backup holds what was
    read from it and the file holds the transformed text or a first part
    of it; and when nothing fails the turn comes to its end with the file
    transformed. *)
Definition turn_spec (pass : text → text) (f : string) (w : world)
    (out : result nat * world) : Prop :=
  read_fault out.2 = read_fault w ∧ write_fault out.2 = write_fault w
  ∧ (∀ q, q ≠ f → q ≠ bak f → files out.2 !! q = files w !! q)
  ∧ (files w !! f = None → (∃ t, out.1 = Ok t) ∧ files out.2 = files w)
  ∧ (∀ c, files w !! f = Some c →
          files out.2 !! f = Some c
          ∨ (files out.2 !! bak f = Some (universal_newlines c)
             ∧ ∃ k, files out.2 !! f = Some (take k (pass (universal_newlines c)))))
  ∧ (∀ c, files w !! f = Some c → read_fault w f = None →
          write_fault w (bak f) = None → write_fault w f = None →
          (∃ t, out.1 = Ok t)
          ∧ files out.2 !! bak f = Some (universal_newlines c)
          ∧ files out.2 !! f = Some (pass (universal_newlines c))).

(** The number of backticks of a text. *)
Definition backticks (s : text) : nat := length (filter (λ c, c = backtick) s).

(** ** Texts as words between double quotes

    A text is its first word and the words behind each double quote:
    [s.split(dquote)].  The old tokens are names between two double quotes,
    so an old token occurs where a word between two double quotes, a
    middle word, is a name; the passes over a text are followed on its
    words. *)

Definition words : Type := text * list text.

(** The text behind the first word. *)
Fixpoint join_rest (rest : list text) : text :=
  match rest with
  | [] => []
  | w :: rest' => dquote :: w ++ join_rest rest'
  end.

Definition join (ws : words) : text := ws.1 ++ join_rest ws.2.

(** The old token of a name. *)
Definition tok (name : text) : text := dquote :: name ++ [dquote].

(** [replace] on words: a middle word that is the name is replaced, which
    glues it to the words before and behind it; the scan goes on behind
    the closing double quote. *)
Fixpoint replace_words (X N h : text) (rest : list text) {struct rest} : words :=
  match rest with
  | [] => (h, [])
  | w1 :: rest1 =>
      match rest1 with
      | [] => (h, [w1])
      | w2 :: rest2 =>
          if decide (w1 = X) then replace_words X N (h ++ N ++ w2) rest2
          else (h, (replace_words X N w1 rest1).1 :: (replace_words X N w1 rest1).2)
      end
  end.

(** [count] on words. *)
Fixpoint count_words (X : text) (rest : list text) {struct rest} : nat :=
  match rest with
  | [] => 0
  | w1 :: rest1 =>
      match rest1 with
      | [] => 0
      | w2 :: rest2 =>
          if decide (w1 = X) then S (count_words X rest2)
          else count_words X rest1
      end
  end.

(** The middle words: all words but the first and the last. *)
Fixpoint mids (rest : list text) : list text :=
  match rest with
  | [] => []
  | w1 :: rest1 =>
      match rest1 with
      | [] => []
      | _ :: _ => w1 :: mids rest1
      end
  end.

(** No two neighbours among the middle words are both names of [D]. *)
Fixpoint no_adjacent (D : text → Prop) (rest : list text) : Prop :=
  match rest with
  | [] => True
  | w1 :: rest1 =>
      match mids rest1 with
      | [] => True
      | w2 :: _ => ¬ (D w1 ∧ D w2)
      end ∧ no_adjacent D rest1
  end.

(** All replacements of a dictionary at once, in one scan from the left. *)
Fixpoint replace_all_words (d : gmap text text) (h : text) (rest : list text)
    {struct rest} : words :=
  match rest with
  | [] => (h, [])
  | w1 :: rest1 =>
      match rest1 with
      | [] => (h, [w1])
      | w2 :: rest2 =>
          match d !! w1 with
          | Some N => replace_all_words d (h ++ N ++ w2) rest2
          | None => (h, (replace_all_words d w1 rest1).1
                          :: (replace_all_words d w1 rest1).2)
          end
      end
  end.

(** The table of tokens of a table of names. *)
Definition tokens_of (nm : list (text * text)) : list (text * text) :=
  map (λ e, (tok e.1, e.2)) nm.

(** The shape of the entries of both tables: the name has no double quote
    and no underscore, the new token has no double quote and no backtick
    and has an underscore. *)
Definition wf_name (e : text * text) : Prop :=
  (dquote ∉ e.1) ∧ (underscore ∉ e.1)
  ∧ (dquote ∉ e.2) ∧ (backtick ∉ e.2) ∧ (underscore ∈ e.2).

(** The name of an old token: the token without its first and its last
    character. *)
Definition untok (old : text) : text := removelast (tail old).

Definition names (m : list (text * text)) : list (text * text) :=
  map (λ e, (untok e.1, e.2)) m.

(** A table whose old tokens are names between double quotes, of that
    shape. *)
Definition wf_entry (e : text * text) : Prop :=
  tok (untok e.1) = e.1 ∧ wf_name (untok e.1, e.2).

Definition wf_table (m : list (text * text)) : Prop := Forall wf_entry m.

(** The passes of a table of names over the words of a text. *)
Definition pass_words (nm : list (text * text)) (ws : words) : words :=
  fold_left (λ ws e, replace_words e.1 e.2 ws.1 ws.2) nm ws.

(** The dictionary a table of names builds up, entry by entry. *)
Definition dict_of (nm : list (text * text)) (d : gmap text text) : gmap text text :=
  fold_left (λ d e, <[e.1 := e.2]> d) nm d.

(** How often a name is a middle word. *)
Definition middle_count (X : text) (rest : list text) : nat :=
  length (filter (λ w, w = X) (mids rest)).

Definition plain_words (ws : words) : Prop :=
  (dquote ∉ ws.1) ∧ Forall (λ w, dquote ∉ w) ws.2.

(** A check of [overlap_free] that runs: the offsets to look at are those
    of the text. *)
Definition overlap_check (m : list (text * text)) (s : text) : Prop :=
  Forall (λ i,
    Forall (λ j,
      Forall (λ e1 : text * text,
        Forall (λ e2 : text * text,
          startswith e1.1 (drop i s) = true →
          startswith e2.1 (drop j s) = true →
          i < j → i + length e1.1 ≤ j) m) m)
      (seq 0 (S (length s))))
    (seq 0 (S (length s))).

(** The first table with its first two entries the other way round. *)
Definition swapped_mappings : list (text * text) :=
  match FixHandlers.COLUMN_MAPPINGS with
  | e1 :: e2 :: m => e2 :: e1 :: m
  | m => m
  end.

(** A text in which the old tokens share their double quotes: the token
    of userId, teamId, and the token of userId again. *)
Definition overlapping : text :=
  quoted "userId" ++ txt "teamId" ++ quoted "userId".

(** The number of double quotes of a text. *)
Definition dquotes (s : text) : nat := length (filter (λ c, c = dquote) s).

(** The counts of the [Replaced] lines of a history, added up. *)
Fixpoint replaced_total (l : list event) : nat :=
  match l with
  | [] => 0
  | Printed (Replaced _ _ count) :: l' => count + replaced_total l'
  | _ :: l' => replaced_total l'
  end.

(** What a listed file adds to the total of a run: the count of the pass
    over the text read from it, nothing when it is missing. *)
Definition file_count (pass : text → text * nat) (w : world) (f : string) : nat :=
  match files w !! f with
  | Some c => (pass (universal_newlines c)).2
  | None => 0
  end.

(* ===================================================================== *)
(** * Part II: properties *)
(* ===================================================================== *)

(** ** Python strings *)

Lemma startswith_spec p s : startswith p s = true ↔ ∃ r, s = p ++ r.
Proof.
  revert s. induction p as [|a p IH]; intros s; simpl.
  - split; [eauto | done].
  - destruct s as [|b s]; simpl.
    + split; [done | by intros [r Hr]].
    + rewrite andb_true_iff, Ascii.eqb_eq, IH. split.
      * intros [-> [r ->]]. eauto.
      * intros [r [= -> ->]]. eauto.
Qed.

Lemma startswith_app p r : startswith p (p ++ r) = true.
Proof. apply startswith_spec. eauto. Qed.

Lemma count_from_skip sub k s : count_from sub k s = count_from sub 0 (drop k s).
Proof.
  revert k. induction s as [|c s IH]; intros [|k]; try done.
  simpl. apply IH.
Qed.

Lemma replace_from_skip old new k s :
  replace_from old new k s = replace_from old new 0 (drop k s).
Proof.
  revert k. induction s as [|c s IH]; intros [|k]; try done.
  simpl. apply IH.
Qed.

(** The two equations of the scan, with the skip counter unfolded. *)
Lemma count_from_match sub r :
  sub ≠ [] → count_from sub 0 (sub ++ r) = S (count_from sub 0 r).
Proof.
  intros Hne. destruct sub as [|a sub]; [done|].
  pose proof (startswith_app (a :: sub) r) as Hsw.
  change ((a :: sub) ++ r) with (a :: (sub ++ r)) in *.
  cbn [count_from]. rewrite Hsw, count_from_skip.
  replace (length (a :: sub) - 1) with (length sub) by (simpl; lia).
  by rewrite drop_app_length.
Qed.

Lemma count_from_step sub c s :
  startswith sub (c :: s) = false →
  count_from sub 0 (c :: s) = count_from sub 0 s.
Proof. intros H. cbn [count_from]. by rewrite H. Qed.

Lemma replace_from_match old new r :
  old ≠ [] → replace_from old new 0 (old ++ r) = new ++ replace_from old new 0 r.
Proof.
  intros Hne. destruct old as [|a old]; [done|].
  pose proof (startswith_app (a :: old) r) as Hsw.
  change ((a :: old) ++ r) with (a :: (old ++ r)) in *.
  cbn [replace_from]. rewrite Hsw, replace_from_skip.
  replace (length (a :: old) - 1) with (length old) by (simpl; lia).
  by rewrite drop_app_length.
Qed.

Lemma replace_from_step old new c s :
  startswith old (c :: s) = false →
  replace_from old new 0 (c :: s) = c :: replace_from old new 0 s.
Proof. intros H. cbn [replace_from]. by rewrite H. Qed.

Lemma startswith_false_occurs p c s :
  startswith p (c :: s) = false → occurs p (c :: s) → occurs p s.
Proof.
  intros Hsw (a & b & Heq). destruct a as [|x a].
  - simpl in Heq. assert (startswith p (c :: s) = true) as E; [|congruence].
    apply startswith_spec. eauto.
  - simpl in Heq. injection Heq as -> ->. by exists a, b.
Qed.

Lemma count_from_zero sub s : sub ≠ [] → count_from sub 0 s = 0 ↔ ¬ occurs sub s.
Proof.
  intros Hne. induction s as [|c s IH].
  - split; [|done]. intros _ (a & b & Heq).
    destruct a; destruct sub; simplify_eq/=.
  - destruct (startswith sub (c :: s)) eqn:Hsw.
    + apply startswith_spec in Hsw as [r Hr]. rewrite Hr.
      rewrite count_from_match by done. split; [done|].
      intros []. by exists [], r.
    + rewrite count_from_step by done. rewrite IH. split.
      * intros Hn Ho. apply Hn. by eapply startswith_false_occurs.
      * intros Hn (a & b & ->). apply Hn. by exists (c :: a), b.
Qed.

(** [count] is zero exactly when there is no occurrence. *)
Lemma str_count_zero s sub : str_count s sub = 0 ↔ ¬ occurs sub s.
Proof.
  destruct sub as [|a sub].
  - simpl. split; [done|]. intros []. by exists [], s.
  - apply count_from_zero. done.
Qed.

Lemma replace_from_no_match old new s :
  old ≠ [] → count_from old 0 s = 0 → replace_from old new 0 s = s.
Proof.
  intros Hne. induction s as [|c s IH]; [done|].
  destruct (startswith old (c :: s)) eqn:Hsw.
  - apply startswith_spec in Hsw as [r Hr]. rewrite Hr.
    by rewrite count_from_match.
  - rewrite count_from_step, replace_from_step by done. intros H. by rewrite IH.
Qed.

(** The guard [if count > 0] skips a replacement that would change
    nothing. *)
Lemma replace_step_unguarded u n old new :
  old ≠ [] →
  replace_step (u, n) (old, new) = (str_replace u old new, n + str_count u old).
Proof.
  intros Hne. unfold replace_step.
  destruct (0 <? str_count u old) eqn:Hc; [done|].
  apply Nat.ltb_ge in Hc. assert (str_count u old = 0) as H0 by lia.
  rewrite H0, Nat.add_0_r. f_equal.
  destruct old as [|a old]; [done|]. simpl in *.
  by rewrite replace_from_no_match.
Qed.

Lemma replace_step_absent u n old new :
  ¬ occurs old u → replace_step (u, n) (old, new) = (u, n).
Proof.
  intros H. apply str_count_zero in H. unfold replace_step. by rewrite H.
Qed.

Lemma apply_mappings_token_free m s n :
  token_free m s → apply_mappings m (s, n) = (s, n).
Proof.
  unfold apply_mappings. induction m as [|[old new] m IH]; intros Hf; [done|].
  cbn [fold_left]. rewrite replace_step_absent.
  - apply IH. intros o nw Hin. apply (Hf o nw). by right.
  - apply (Hf old new). by left.
Qed.

(** The running total only accumulates: a pass started at [n] is the pass
    started at zero with [n] added. *)
Lemma replace_step_total u n entry :
  replace_step (u, n) entry
  = ((replace_step (u, 0) entry).1, n + (replace_step (u, 0) entry).2).
Proof.
  destruct entry as [old new]. unfold replace_step.
  destruct (0 <? str_count u old); simpl; f_equal; lia.
Qed.

Lemma apply_mappings_total m s n :
  apply_mappings m (s, n)
  = ((apply_mappings m (s, 0)).1, n + (apply_mappings m (s, 0)).2).
Proof.
  unfold apply_mappings. revert s n.
  induction m as [|entry m IH]; intros s n; cbn [fold_left].
  - simpl. f_equal. lia.
  - rewrite (replace_step_total s n).
    destruct (replace_step (s, 0) entry) as [u k]. cbn [fst snd].
    rewrite (IH u (n + k)), (IH u k). cbn [fst snd]. f_equal. lia.
Qed.

(** ** The backtick pattern *)

Section Finditer.
Import UpdateSql.

Lemma match_body_closed body rest :
  backtick ∉ body → match_body (body ++ backtick :: rest) = Some body.
Proof.
  induction body as [|c body IH]; intros Hb; simpl.
  - done.
  - apply not_elem_of_cons in Hb as [Hc Hb].
    destruct (Ascii.eqb_spec c backtick) as [->|_]; [done|]. by rewrite IH.
Qed.

Lemma match_body_open s : backtick ∉ s → match_body s = None.
Proof.
  induction s as [|c s IH]; intros Hb; simpl; [done|].
  apply not_elem_of_cons in Hb as [Hc Hb].
  destruct (Ascii.eqb_spec c backtick) as [->|_]; [done|]. by rewrite IH.
Qed.

Lemma finditer_from_skip k pos s :
  finditer_from k pos s = finditer_from 0 (pos + k) (drop k s).
Proof.
  revert k pos. induction s as [|c s IH]; intros [|k] pos; simpl; try done.
  - by rewrite Nat.add_0_r.
  - rewrite IH. f_equal. lia.
Qed.

Lemma finditer_from_plain pre pos s :
  backtick ∉ pre →
  finditer_from 0 pos (pre ++ s) = finditer_from 0 (pos + length pre) s.
Proof.
  revert pos. induction pre as [|c pre IH]; intros pos Hb; simpl.
  - by rewrite Nat.add_0_r.
  - apply not_elem_of_cons in Hb as [Hc Hb].
    destruct (Ascii.eqb_spec c backtick) as [->|_]; [done|].
    rewrite IH by done. f_equal. lia.
Qed.

Lemma finditer_from_plain_nil pre pos :
  backtick ∉ pre → finditer_from 0 pos pre = [].
Proof.
  intros Hb. rewrite <- (app_nil_r pre). by rewrite finditer_from_plain.
Qed.

Lemma finditer_from_unpaired pos tail :
  backtick ∉ tail → finditer_from 0 pos (backtick :: tail) = [].
Proof.
  intros Hb. cbn [finditer_from]. rewrite Ascii.eqb_refl.
  rewrite match_body_open by done. by apply finditer_from_plain_nil.
Qed.

Lemma finditer_from_block pos body rest :
  backtick ∉ body →
  finditer_from 0 pos (backtick :: body ++ backtick :: rest)
  = (pos, pos + length body + 2, body)
      :: finditer_from 0 (pos + length body + 2) rest.
Proof.
  intros Hb. cbn [finditer_from]. rewrite Ascii.eqb_refl.
  rewrite match_body_closed by done. f_equal.
  rewrite finditer_from_skip. f_equal; [lia|].
  rewrite drop_app_ge by lia.
  by replace (S (length body) - length body) with 1 by lia.
Qed.

(** A text has no backtick, one unpaired backtick, or a first block. *)
Lemma first_block (s : text) :
  backtick ∉ s
  ∨ (∃ pre tail, s = pre ++ backtick :: tail ∧ (backtick ∉ pre) ∧ (backtick ∉ tail))
  ∨ (∃ pre body rest, s = pre ++ backtick :: body ++ backtick :: rest
                      ∧ (backtick ∉ pre) ∧ (backtick ∉ body)).
Proof.
  destruct (decide (backtick ∈ s)) as [Hin|]; [|by left]. right.
  apply list_elem_of_split_l in Hin as (pre & tail & -> & Hpre).
  destruct (decide (backtick ∈ tail)) as [Hin|]; [|left; eauto].
  apply list_elem_of_split_l in Hin as (body & rest & -> & Hbody).
  right. by exists pre, body, rest.
Qed.

End Finditer.

(** ** Splicing the rewritten blocks back *)

Section Splice.
Import UpdateSql.
Variable m : list (text * text).

Lemma update_query_block pfx pre body out n :
  update_query m (pfx ++ pre ++ backtick :: body ++ backtick :: out, n)
    (length pfx + length pre, length pfx + length pre + length body + 2, body)
  = (pfx ++ pre ++ backtick :: (apply_mappings m (body, 0)).1 ++ backtick :: out,
     n + (apply_mappings m (body, 0)).2).
Proof.
  unfold update_query. rewrite (apply_mappings_total m body n).
  destruct (apply_mappings m (body, 0)) as [b' k]. cbn [fst snd].
  case_bool_decide as Hne.
  - assert (take (length pfx + length pre)
              (pfx ++ pre ++ backtick :: body ++ backtick :: out) = pfx ++ pre) as ->.
    { rewrite app_assoc. apply take_app_length'. by rewrite length_app. }
    assert (drop (length pfx + length pre + length body + 2)
              (pfx ++ pre ++ backtick :: body ++ backtick :: out) = out) as ->.
    { replace (pfx ++ pre ++ backtick :: body ++ backtick :: out)
        with ((pfx ++ pre ++ backtick :: body ++ [backtick]) ++ out)
        by (by rewrite <- !app_assoc; simpl; rewrite <- !app_assoc).
      apply drop_app_length'. rewrite !length_app. simpl. rewrite length_app. simpl. lia. }
    by rewrite <- app_assoc.
  - by subst b'.
Qed.

(** Processing the queries of [pre ++ `body` ++ rest] last to first: the
    queries of [rest] leave everything before them alone, so the offsets of
    the first block still hold when its turn comes. *)
Lemma splice_step pre body rest R C :
  backtick ∉ pre → backtick ∉ body →
  (∀ pfx n,
     fold_left (update_query m) (rev (finditer_from 0 (length pfx) rest)) (pfx ++ rest, n)
     = (pfx ++ R, n + C)) →
  ∀ pfx n,
    fold_left (update_query m)
      (rev (finditer_from 0 (length pfx) (pre ++ backtick :: body ++ backtick :: rest)))
      (pfx ++ pre ++ backtick :: body ++ backtick :: rest, n)
    = (pfx ++ pre ++ backtick :: (apply_mappings m (body, 0)).1 ++ backtick :: R,
       n + C + (apply_mappings m (body, 0)).2).
Proof.
  intros Hpre Hbody HA pfx n.
  rewrite finditer_from_plain, finditer_from_block by done.
  cbn [rev]. rewrite fold_left_app. cbn [fold_left].
  specialize (HA (pfx ++ pre ++ backtick :: body ++ [backtick]) n).
  replace (length (pfx ++ pre ++ backtick :: body ++ [backtick]))
    with (length pfx + length pre + length body + 2) in HA
    by (rewrite !length_app; simpl; rewrite length_app; simpl; lia).
  replace ((pfx ++ pre ++ backtick :: body ++ [backtick]) ++ rest)
    with (pfx ++ pre ++ backtick :: body ++ backtick :: rest) in HA
    by (by rewrite <- !app_assoc; simpl; rewrite <- !app_assoc).
  rewrite HA.
  replace ((pfx ++ pre ++ backtick :: body ++ [backtick]) ++ R)
    with (pfx ++ pre ++ backtick :: body ++ backtick :: R)
    by (by rewrite <- !app_assoc; simpl; rewrite <- !app_assoc).
  apply update_query_block.
Qed.

Lemma splice_shift s :
  ∀ pfx n,
    fold_left (update_query m) (rev (finditer_from 0 (length pfx) s)) (pfx ++ s, n)
    = (pfx ++ (update_sql_in_content_with m s).1,
       n + (update_sql_in_content_with m s).2).
Proof.
  remember (length s) as k eqn:Hk. revert s Hk.
  induction k as [k IH] using lt_wf_ind. intros s -> pfx n.
  unfold update_sql_in_content_with, extract_sql_queries.
  destruct (first_block s) as [Hb|[(pre & tail & -> & Hpre & Htail)
                                  |(pre & body & rest & -> & Hpre & Hbody)]].
  - rewrite !finditer_from_plain_nil by done. simpl. by rewrite Nat.add_0_r.
  - rewrite !finditer_from_plain, !finditer_from_unpaired by done.
    simpl. by rewrite Nat.add_0_r.
  - assert (length rest < length (pre ++ backtick :: body ++ backtick :: rest)) as Hlt.
    { rewrite length_app. simpl. rewrite length_app. simpl. lia. }
    pose proof (splice_step pre body rest _ _ Hpre Hbody (IH _ Hlt rest eq_refl)) as HS.
    rewrite HS. pose proof (HS [] 0) as HS0. simpl in HS0. rewrite HS0.
    cbn [fst snd]. f_equal. lia.
Qed.

(** The equations of [update_sql_in_content]: a text without a pair of
    backticks is returned as it is, ... *)
Lemma update_sql_plain s :
  backtick ∉ s → update_sql_in_content_with m s = (s, 0).
Proof.
  intros Hb. unfold update_sql_in_content_with, extract_sql_queries.
  by rewrite finditer_from_plain_nil.
Qed.

Lemma update_sql_unpaired pre tail :
  backtick ∉ pre → backtick ∉ tail →
  update_sql_in_content_with m (pre ++ backtick :: tail) = (pre ++ backtick :: tail, 0).
Proof.
  intros Hpre Htail. unfold update_sql_in_content_with, extract_sql_queries.
  by rewrite finditer_from_plain, finditer_from_unpaired.
Qed.

(** ... and a first block is passed through the table while the text
    before it is kept and the text behind it is treated the same way. *)
Lemma update_sql_block pre body rest :
  backtick ∉ pre → backtick ∉ body →
  update_sql_in_content_with m (pre ++ backtick :: body ++ backtick :: rest)
  = (pre ++ backtick :: (apply_mappings m (body, 0)).1
         ++ backtick :: (update_sql_in_content_with m rest).1,
     (update_sql_in_content_with m rest).2 + (apply_mappings m (body, 0)).2).
Proof.
  intros Hpre Hbody.
  pose proof (splice_step pre body rest _ _ Hpre Hbody (splice_shift rest) [] 0) as HS.
  simpl in HS. apply HS.
Qed.

End Splice.

(** ** Counting backticks *)

Lemma backticks_app a b : backticks (a ++ b) = backticks a + backticks b.
Proof. unfold backticks. by rewrite filter_app, length_app. Qed.

Lemma backticks_cons_backtick s : backticks (backtick :: s) = S (backticks s).
Proof. unfold backticks. by rewrite filter_cons_True. Qed.

Lemma backticks_plain s : backtick ∉ s → backticks s = 0.
Proof.
  unfold backticks. induction s as [|c s IH]; intros Hb; [done|].
  apply not_elem_of_cons in Hb as [Hc Hb].
  rewrite filter_cons_False by done. by apply IH.
Qed.

Lemma backticks_block pre body rest :
  backtick ∉ pre → backtick ∉ body →
  backticks (pre ++ backtick :: body ++ backtick :: rest) = S (S (backticks rest)).
Proof.
  intros Hpre Hbody.
  rewrite backticks_app, backticks_cons_backtick, backticks_app,
    backticks_cons_backtick, !backticks_plain by done. lia.
Qed.

Lemma backticks_unpaired pre tail :
  backtick ∉ pre → backtick ∉ tail → backticks (pre ++ backtick :: tail) = 1.
Proof.
  intros Hpre Htail.
  by rewrite backticks_app, backticks_cons_backtick, !backticks_plain.
Qed.

Section Blocks.
Import UpdateSql.
Variable m : list (text * text).

Lemma length_block (pre body rest : text) :
  length rest < length (pre ++ backtick :: body ++ backtick :: rest).
Proof. rewrite length_app. simpl. rewrite length_app. simpl. lia. Qed.

(** Text without a backtick in front of a text is kept. *)
Lemma update_sql_plain_app pre s :
  backtick ∉ pre →
  update_sql_in_content_with m (pre ++ s)
  = (pre ++ (update_sql_in_content_with m s).1, (update_sql_in_content_with m s).2).
Proof.
  intros Hpre.
  destruct (first_block s) as [Hb|[(p & tail & -> & Hp & Htail)
                                  |(p & body & rest & -> & Hp & Hbody)]].
  - rewrite !update_sql_plain; [done..|]. rewrite not_elem_of_app. done.
  - rewrite app_assoc, !update_sql_unpaired; [by rewrite <- app_assoc|try done..].
    rewrite not_elem_of_app. done.
  - rewrite app_assoc, !update_sql_block; [by rewrite <- app_assoc|try done..].
    rewrite not_elem_of_app. done.
Qed.

(** A text with an even number of backticks is closed: what follows it is
    treated on its own. *)
Lemma update_sql_even_app pre s :
  Nat.Even (backticks pre) →
  update_sql_in_content_with m (pre ++ s)
  = ((update_sql_in_content_with m pre).1 ++ (update_sql_in_content_with m s).1,
     (update_sql_in_content_with m pre).2 + (update_sql_in_content_with m s).2).
Proof.
  remember (length pre) as k eqn:Hk. revert pre Hk.
  induction k as [k IH] using lt_wf_ind. intros pre -> Hev.
  destruct (first_block pre) as [Hb|[(p & tail & -> & Hp & Htail)
                                    |(p & body & rest & -> & Hp & Hbody)]].
  - rewrite update_sql_plain_app, (update_sql_plain m pre) by done. done.
  - rewrite backticks_unpaired in Hev by done. by destruct Hev as [[|?] ?]; lia.
  - rewrite backticks_block in Hev by done.
    assert (Nat.Even (backticks rest)) as Hev'.
    { destruct Hev as [j Hj]. exists (j - 1). lia. }
    replace ((p ++ backtick :: body ++ backtick :: rest) ++ s)
      with (p ++ backtick :: body ++ backtick :: (rest ++ s))
      by (by rewrite <- !app_assoc; simpl; rewrite <- !app_assoc).
    rewrite !update_sql_block by done.
    rewrite (IH _ (length_block p body rest) rest eq_refl Hev').
    cbn [fst snd]. f_equal; [|lia].
    by rewrite <- !app_assoc; simpl; rewrite <- !app_assoc.
Qed.

(** Every match is a pair of backticks around a text without one, with an
    even number of backticks before it. *)
Lemma finditer_from_spec s :
  ∀ pos start end_ sql,
    (start, end_, sql) ∈ finditer_from 0 pos s →
    ∃ a b, s = a ++ backtick :: sql ++ backtick :: b
           ∧ start = pos + length a ∧ end_ = start + length sql + 2
           ∧ (backtick ∉ sql) ∧ Nat.Even (backticks a).
Proof.
  remember (length s) as k eqn:Hk. revert s Hk.
  induction k as [k IH] using lt_wf_ind. intros s -> pos start end_ sql.
  destruct (first_block s) as [Hb|[(p & tail & -> & Hp & Htail)
                                  |(p & body & rest & -> & Hp & Hbody)]].
  - rewrite finditer_from_plain_nil by done. by intros ?%elem_of_nil.
  - rewrite finditer_from_plain, finditer_from_unpaired by done.
    by intros ?%elem_of_nil.
  - rewrite finditer_from_plain, finditer_from_block by done.
    intros [Heq|Hin]%elem_of_cons.
    + injection Heq as -> -> ->. exists p, rest. split_and!; try done; try lia.
      rewrite backticks_plain by done. by exists 0.
    + apply (IH _ (length_block p body rest) rest eq_refl) in Hin
        as (a & b & -> & -> & -> & Hsql & Hev).
      exists (p ++ backtick :: body ++ backtick :: a), b. split_and!; try done.
      * by rewrite <- !app_assoc; simpl; rewrite <- !app_assoc.
      * rewrite length_app. simpl. rewrite length_app. simpl. lia.
      * rewrite backticks_block by done. destruct Hev as [j Hj]. exists (S j). lia.
Qed.

(** Text behind a closed text and an unpaired backtick holds no match. *)
Lemma finditer_from_even_unpaired pre tail :
  Nat.Even (backticks pre) → backtick ∉ tail →
  ∀ pos, finditer_from 0 pos (pre ++ backtick :: tail) = finditer_from 0 pos pre.
Proof.
  remember (length pre) as k eqn:Hk. revert pre Hk.
  induction k as [k IH] using lt_wf_ind. intros pre -> Hev Htail pos.
  destruct (first_block pre) as [Hb|[(p & t & -> & Hp & Ht)
                                    |(p & body & rest & -> & Hp & Hbody)]].
  - rewrite finditer_from_plain, finditer_from_unpaired by done.
    by rewrite finditer_from_plain_nil.
  - rewrite backticks_unpaired in Hev by done. by destruct Hev as [[|?] ?]; lia.
  - rewrite backticks_block in Hev by done.
    assert (Nat.Even (backticks rest)) as Hev'.
    { destruct Hev as [j Hj]. exists (j - 1). lia. }
    replace ((p ++ backtick :: body ++ backtick :: rest) ++ backtick :: tail)
      with (p ++ backtick :: body ++ backtick :: (rest ++ backtick :: tail))
      by (by rewrite <- !app_assoc; simpl; rewrite <- !app_assoc).
    rewrite !finditer_from_plain, !finditer_from_block by done.
    by rewrite (IH _ (length_block p body rest) rest eq_refl Hev' Htail).
Qed.

Lemma occurs_app_l t a b : occurs t a → occurs t (a ++ b).
Proof. intros (x & y & ->). exists x, (y ++ b). by rewrite <- !app_assoc. Qed.

Lemma occurs_app_r t a b : occurs t b → occurs t (a ++ b).
Proof. intros (x & y & ->). exists (a ++ x), y. by rewrite <- !app_assoc. Qed.

Lemma occurs_cons t c s : occurs t s → occurs t (c :: s).
Proof. apply (occurs_app_r t [c] s). Qed.

Lemma token_free_block pre body rest :
  token_free m (pre ++ backtick :: body ++ backtick :: rest) →
  token_free m body ∧ token_free m rest.
Proof.
  intros Hf. split; intros old new Hin Ho; apply (Hf old new Hin).
  - apply occurs_app_r, occurs_cons. by apply occurs_app_l.
  - apply occurs_app_r, occurs_cons, occurs_app_r. by apply occurs_cons.
Qed.

Lemma update_sql_token_free s :
  token_free m s → update_sql_in_content_with m s = (s, 0).
Proof.
  remember (length s) as k eqn:Hk. revert s Hk.
  induction k as [k IH] using lt_wf_ind. intros s -> Hf.
  destruct (first_block s) as [Hb|[(p & tail & -> & Hp & Htail)
                                  |(p & body & rest & -> & Hp & Hbody)]].
  - by apply update_sql_plain.
  - by apply update_sql_unpaired.
  - apply token_free_block in Hf as [Hbody' Hrest].
    rewrite update_sql_block by done.
    rewrite (apply_mappings_token_free m body 0 Hbody').
    by rewrite (IH _ (length_block p body rest) rest eq_refl Hrest).
Qed.

End Blocks.

(** ** The loop of [update_file] and the pure pass *)

Lemma logged_nil w : logged w [] = w.
Proof. destruct w. unfold logged. simpl. by rewrite app_nil_r. Qed.

Lemma logged_logged w e1 e2 : logged (logged w e1) e2 = logged w (e1 ++ e2).
Proof. unfold logged. simpl. by rewrite app_assoc. Qed.

Lemma replace_loop_spec m acc w :
  FixHandlers.replace_loop m acc w = (Ok (apply_mappings m acc), logged w (report m acc)).
Proof.
  revert acc w. induction m as [|[old new] m IH]; intros [u n] w.
  - simpl. by rewrite logged_nil.
  - cbn [FixHandlers.replace_loop report apply_mappings fold_left fst].
    assert (replace_step (u, n) (old, new)
            = if 0 <? str_count u old
              then (str_replace u old new, n + str_count u old) else (u, n))
      as -> by done.
    unfold mbind, io_bind, bind at 1. unfold FixHandlers.replace_and_report.
    destruct (0 <? str_count u old) eqn:Hc.
    + unfold mbind, io_bind, bind, print, ret. rewrite IH. f_equal.
      unfold logged, record; simpl. by rewrite <- app_assoc.
    + unfold ret. by rewrite IH.
Qed.

Lemma report_token_free m s n : token_free m s → report m (s, n) = [].
Proof.
  induction m as [|[old new] m IH]; intros Hf; [done|].
  cbn [report fst]. rewrite replace_step_absent by (apply (Hf old new); by left).
  assert (str_count s old = 0) as ->.
  { apply str_count_zero, (Hf old new). by left. }
  simpl. apply IH. intros o nw Hin. apply (Hf o nw). by right.
Qed.

(** ** Worked examples *)

(** C2, as the code has it.  The input of the example,
    [SELECT "userId", "teamId" FROM posts], becomes
    [SELECT user_id, team_id FROM posts] with a count of 2 in the
    unrestricted script, which prints one line for each of the two tokens;
    the delimited script yields the same for the text between backticks,
    and returns the text without backticks as it is, with a count of 0. *)
Theorem C2_example :
  (∀ w, FixHandlers.replace_loop FixHandlers.COLUMN_MAPPINGS (example_in, 0) w
        = (Ok (example_out, 2),
           logged w [Printed (Replaced (quoted "teamId") (txt "team_id") 1);
                     Printed (Replaced (quoted "userId") (txt "user_id") 1)]))
  ∧ UpdateSql.update_sql_in_content (backtick :: example_in ++ [backtick])
    = (backtick :: example_out ++ [backtick], 2)
  ∧ UpdateSql.update_sql_in_content example_in = (example_in, 0).
Proof.
  split_and!.
  - intros w. rewrite replace_loop_spec. f_equal.
  - by vm_compute.
  - by vm_compute.
Qed.

(** C2 as stated fails for the delimited script: on the example's input,
    which has no backtick, it does not return the renamed text and the
    count 2. *)
Lemma C2_delimited_counterexample :
  UpdateSql.update_sql_in_content example_in ≠ (example_out, 2).
Proof. by vm_compute. Qed.

(** C7: a text in which no old token of the table occurs is returned as it
    is with a count of zero, by the loop of [update_file], which prints
    nothing, and by [update_sql_in_content]. *)
Theorem C7_no_token_no_change (s : text) :
  (token_free FixHandlers.COLUMN_MAPPINGS s →
   ∀ w, FixHandlers.replace_loop FixHandlers.COLUMN_MAPPINGS (s, 0) w = (Ok (s, 0), w))
  ∧ (token_free UpdateSql.REPLACEMENTS s →
     UpdateSql.update_sql_in_content s = (s, 0)).
Proof.
  split.
  - intros Hf w. rewrite replace_loop_spec, apply_mappings_token_free by done.
    by rewrite report_token_free, logged_nil.
  - apply update_sql_token_free.
Qed.

(** ** The blocks *)

(** Induction over the blocks of a text, first block first. *)
Lemma block_ind (P : text → Prop) :
  (∀ s, backtick ∉ s → P s) →
  (∀ pre tail, backtick ∉ pre → backtick ∉ tail → P (pre ++ backtick :: tail)) →
  (∀ pre body rest, backtick ∉ pre → backtick ∉ body → P rest →
     P (pre ++ backtick :: body ++ backtick :: rest)) →
  ∀ s, P s.
Proof.
  intros Hplain Hun Hblock s.
  remember (length s) as k eqn:Hk. revert s Hk.
  induction k as [k IH] using lt_wf_ind. intros s ->.
  destruct (first_block s) as [Hb|[(p & tail & -> & Hp & Htail)
                                  |(p & body & rest & -> & Hp & Hbody)]].
  - by apply Hplain.
  - by apply Hun.
  - apply Hblock; [done..|]. by apply (IH _ (length_block p body rest) rest).
Qed.

(** The offsets of the matches move with the offset the scan starts at. *)
Lemma finditer_from_shift k pos s :
  UpdateSql.finditer_from k pos s
  = (λ q : nat * nat * text, (pos + q.1.1, pos + q.1.2, q.2))
      <$> UpdateSql.finditer_from k 0 s.
Proof.
  revert k pos. induction s as [|c s IH]; intros k pos; [done|].
  cbn [UpdateSql.finditer_from]. destruct k as [|k].
  - destruct (Ascii.eqb c backtick).
    + destruct (UpdateSql.match_body s) as [sql|].
      * rewrite fmap_cons. cbn [fst snd]. f_equal; [f_equal; f_equal; lia|].
        rewrite (IH _ (S pos)), (IH _ 1). rewrite <- list_fmap_compose.
        apply list_fmap_ext. intros _ [[a b] x] _. cbn. f_equal; f_equal; lia.
      * rewrite (IH _ (S pos)), (IH _ 1). rewrite <- list_fmap_compose.
        apply list_fmap_ext. intros _ [[a b] x] _. cbn. f_equal; f_equal; lia.
    + rewrite (IH _ (S pos)), (IH _ 1). rewrite <- list_fmap_compose.
      apply list_fmap_ext. intros _ [[a b] x] _. cbn. f_equal; f_equal; lia.
  - rewrite (IH _ (S pos)), (IH _ 1). rewrite <- list_fmap_compose.
    apply list_fmap_ext. intros _ [[a b] x] _. cbn. f_equal; f_equal; lia.
Qed.

Lemma finditer_from_sqls pos s :
  (UpdateSql.finditer_from 0 pos s).*2 = (UpdateSql.extract_sql_queries s).*2.
Proof.
  unfold UpdateSql.extract_sql_queries. rewrite (finditer_from_shift 0 pos).
  rewrite <- list_fmap_compose. by apply list_fmap_ext.
Qed.

(** A closed text in front: its matches, then those of what follows. *)
Lemma finditer_from_even_app pre s :
  Nat.Even (backticks pre) →
  ∀ pos, UpdateSql.finditer_from 0 pos (pre ++ s)
         = UpdateSql.finditer_from 0 pos pre
           ++ UpdateSql.finditer_from 0 (pos + length pre) s.
Proof.
  induction pre as [p Hp|p tail Hp Htail|p body rest Hp Hbody IH] using block_ind;
    intros Hev pos.
  - rewrite finditer_from_plain, (finditer_from_plain_nil p) by done. done.
  - rewrite backticks_unpaired in Hev by done. by destruct Hev as [[|?] ?]; lia.
  - rewrite backticks_block in Hev by done.
    assert (Nat.Even (backticks rest)) as Hev'.
    { destruct Hev as [j Hj]. exists (j - 1). lia. }
    replace ((p ++ backtick :: body ++ backtick :: rest) ++ s)
      with (p ++ backtick :: body ++ backtick :: (rest ++ s))
      by (by rewrite <- !app_assoc; simpl; rewrite <- !app_assoc).
    rewrite !finditer_from_plain, !finditer_from_block by done.
    rewrite (IH Hev'). cbn [app]. do 3 f_equal.
    rewrite !length_app. cbn [length]. rewrite !length_app. cbn [length]. lia.
Qed.

(** The matches come in the order of the text and do not overlap: a match
    ends where a later one starts, or before. *)
Lemma finditer_from_ordered s :
  ∀ pos,
    (∀ q, q ∈ UpdateSql.finditer_from 0 pos s → pos ≤ q.1.1)
    ∧ ∀ i j q1 q2, i < j →
        UpdateSql.finditer_from 0 pos s !! i = Some q1 →
        UpdateSql.finditer_from 0 pos s !! j = Some q2 →
        q1.1.2 ≤ q2.1.1.
Proof.
  induction s as [p Hp|p tail Hp Htail|p body rest Hp Hbody IH] using block_ind;
    intros pos.
  - rewrite finditer_from_plain_nil by done. split; [by intros ? ?%elem_of_nil|done].
  - rewrite finditer_from_plain, finditer_from_unpaired by done.
    split; [by intros ? ?%elem_of_nil|done].
  - rewrite finditer_from_plain, finditer_from_block by done.
    destruct (IH (pos + length p + length body + 2)) as [IH1 IH2]. split.
    + intros q [->|Hq]%elem_of_cons; cbn [fst snd]; [lia|].
      apply IH1 in Hq. lia.
    + intros i j q1 q2 Hij H1 H2. destruct j as [|j]; [lia|].
      cbn [lookup list_lookup] in H2. destruct i as [|i].
      * injection H1 as <-. cbn [fst snd].
        apply list_elem_of_lookup_2 in H2. apply IH1 in H2. lia.
      * cbn [lookup list_lookup] in H1. apply (IH2 i j); [lia|done..].
Qed.

(** The number of matches is half the number of backticks, rounded
    down. *)
Lemma finditer_from_length s pos :
  length (UpdateSql.finditer_from 0 pos s) = backticks s / 2.
Proof.
  revert pos.
  induction s as [p Hp|p tail Hp Htail|p body rest Hp Hbody IH] using block_ind;
    intros pos.
  - by rewrite finditer_from_plain_nil, backticks_plain.
  - rewrite finditer_from_plain, finditer_from_unpaired, backticks_unpaired by done.
    done.
  - rewrite finditer_from_plain, finditer_from_block, backticks_block by done.
    cbn [length]. rewrite IH.
    replace (S (S (backticks rest))) with (1 * 2 + backticks rest) by lia.
    rewrite Nat.div_add_l by lia. lia.
Qed.

(** Every pair of backticks around a text without one, with an even number
    of backticks before it, is a match. *)
Lemma finditer_from_complete (a sql b : text) :
  Nat.Even (backticks a) → backtick ∉ sql →
  (length a, length a + length sql + 2, sql)
    ∈ UpdateSql.extract_sql_queries (a ++ backtick :: sql ++ backtick :: b).
Proof.
  intros Hev Hsql. unfold UpdateSql.extract_sql_queries.
  rewrite finditer_from_even_app by done. apply elem_of_app. right.
  rewrite finditer_from_block by done. cbn [Nat.add]. apply list_elem_of_here.
Qed.

(** C10: the blocks are the texts without a backtick between a backtick
    that has an even number of backticks before it and the next backtick.
    [extract_sql_queries] returns exactly these, with the offsets of the
    opening backtick and behind the closing one, in the order of the text
    and without overlap, half the number of backticks of them; and
    [update_sql_in_content] replaces the first block by the pass over it
    and goes on behind it.  When the number of backticks is odd, the last
    one has no partner: every block ends before it, the blocks are those of
    the text before it, and it and the text behind it come out as they
    went in, whatever the table. *)
Theorem C10_unpaired_tail (m : list (text * text)) (content : text) :
  (∀ start end_ sql,
     (start, end_, sql) ∈ UpdateSql.extract_sql_queries content
     ↔ ∃ a b, content = a ++ backtick :: sql ++ backtick :: b
              ∧ length a = start ∧ start + length sql + 2 = end_
              ∧ (backtick ∉ sql) ∧ Nat.Even (backticks a))
  ∧ (∀ i j q1 q2, i < j →
       UpdateSql.extract_sql_queries content !! i = Some q1 →
       UpdateSql.extract_sql_queries content !! j = Some q2 →
       q1.1.2 ≤ q2.1.1)
  ∧ length (UpdateSql.extract_sql_queries content) = backticks content / 2
  ∧ (∀ pre body rest,
       content = pre ++ backtick :: body ++ backtick :: rest →
       backtick ∉ pre → backtick ∉ body →
       UpdateSql.update_sql_in_content_with m content
       = (pre ++ backtick :: (apply_mappings m (body, 0)).1
              ++ backtick :: (UpdateSql.update_sql_in_content_with m rest).1,
          (UpdateSql.update_sql_in_content_with m rest).2
          + (apply_mappings m (body, 0)).2))
  ∧ (∀ pre tail,
       content = pre ++ backtick :: tail →
       backtick ∉ tail →
       Nat.Odd (backticks content) →
       (∀ start end_ sql,
          (start, end_, sql) ∈ UpdateSql.extract_sql_queries content →
          end_ ≤ length pre)
       ∧ UpdateSql.extract_sql_queries content = UpdateSql.extract_sql_queries pre
       ∧ UpdateSql.update_sql_in_content_with m content
         = ((UpdateSql.update_sql_in_content_with m pre).1 ++ backtick :: tail,
            (UpdateSql.update_sql_in_content_with m pre).2)).
Proof.
  split_and!.
  - intros start end_ sql. split.
    + intros Hin.
      apply finditer_from_spec in Hin as (a & b & -> & -> & -> & Hsql & Hev).
      exists a, b. split_and!; done.
    + intros (a & b & -> & <- & <- & Hsql & Hev). by apply finditer_from_complete.
  - apply finditer_from_ordered.
  - apply finditer_from_length.
  - intros pre body rest -> Hpre Hbody. by apply update_sql_block.
  - intros pre tail -> Htail Hodd.
    assert (Nat.Even (backticks pre)) as Hev.
    { rewrite backticks_app, backticks_cons_backtick, (backticks_plain tail) in Hodd
        by done.
      destruct Hodd as [j Hj]. exists j. lia. }
    assert (UpdateSql.extract_sql_queries (pre ++ backtick :: tail)
            = UpdateSql.extract_sql_queries pre) as Hq.
    { unfold UpdateSql.extract_sql_queries. apply finditer_from_even_unpaired; done. }
    split_and!; [|done|].
    + intros start end_ sql Hin. rewrite Hq in Hin.
      apply finditer_from_spec in Hin as (a' & b' & -> & -> & -> & _ & _).
      rewrite length_app. simpl. rewrite length_app. simpl. lia.
    + rewrite update_sql_even_app by done.
      pose proof (update_sql_unpaired m [] tail (not_elem_of_nil _) Htail) as Hu.
      simpl in Hu. rewrite Hu. cbn [fst snd]. f_equal. lia.
Qed.

(** C10 at a text with three backticks: its one block, and the last
    backtick with the token behind it. *)
Lemma C10_unpaired_tail_witness :
  (1, 4, txt "b") ∈ UpdateSql.extract_sql_queries (txt "a`b`c" ++ backtick :: quoted "teamId")
  ∧ UpdateSql.update_sql_in_content_with UpdateSql.REPLACEMENTS
      (txt "a`b`c" ++ backtick :: quoted "teamId")
    = ((UpdateSql.update_sql_in_content_with UpdateSql.REPLACEMENTS (txt "a`b`c")).1
         ++ backtick :: quoted "teamId",
       (UpdateSql.update_sql_in_content_with UpdateSql.REPLACEMENTS (txt "a`b`c")).2).
Proof.
  destruct (C10_unpaired_tail UpdateSql.REPLACEMENTS
              (txt "a`b`c" ++ backtick :: quoted "teamId")) as (H1 & _ & _ & _ & H5).
  split.
  - apply H1. exists (txt "a"), (txt "c" ++ backtick :: quoted "teamId").
    split_and!; [reflexivity..| |by exists 0].
    apply (bool_decide_unpack _). reflexivity.
  - apply (H5 (txt "a`b`c") (quoted "teamId")); [reflexivity| |by exists 1].
    apply (bool_decide_unpack _). reflexivity.
Defined.

(** ** Words *)

(** Induction over a list of words two at a time, as the scans recurse. *)
Lemma word_pair_ind (P : list text → Prop) :
  P [] → (∀ w, P [w]) →
  (∀ w1 w2 r, P r → P (w2 :: r) → P (w1 :: w2 :: r)) →
  ∀ l, P l.
Proof.
  intros Hnil Hone Hstep l.
  assert (P l ∧ ∀ w, P (w :: l)) as [H _]; [|done].
  induction l as [|w l [IH1 IH2]]; [by split|].
  split; [apply IH2|]. intros w'. by apply Hstep.
Qed.

Lemma text_words (s : text) :
  ∃ ws : words, s = join ws ∧ (dquote ∉ ws.1) ∧ Forall (λ w, dquote ∉ w) ws.2.
Proof.
  induction s as [|c s (ws & -> & Hh & Hrest)].
  - exists ([], []). split_and!; [done| |done]. apply not_elem_of_nil.
  - destruct ws as [h rest]. destruct (decide (c = dquote)) as [->|Hc].
    + exists ([], h :: rest). split_and!; [done| |by constructor].
      apply not_elem_of_nil.
    + exists (c :: h, rest). split_and!; [done| |done].
      by apply not_elem_of_cons.
Qed.

Section Replace.
Variables X N : text.
Hypothesis X_plain : dquote ∉ X.

Lemma replace_words_hit h w2 r :
  replace_words X N h (X :: w2 :: r) = replace_words X N (h ++ N ++ w2) r.
Proof. cbn [replace_words]. by rewrite decide_True. Qed.

Lemma replace_words_miss h w1 w2 r :
  w1 ≠ X →
  replace_words X N h (w1 :: w2 :: r)
  = (h, (replace_words X N w1 (w2 :: r)).1 :: (replace_words X N w1 (w2 :: r)).2).
Proof. intros Hne. cbn [replace_words]. by rewrite decide_False. Qed.

Lemma count_words_hit w2 r : count_words X (X :: w2 :: r) = S (count_words X r).
Proof. cbn [count_words]. by rewrite decide_True. Qed.

Lemma count_words_miss w1 w2 r :
  w1 ≠ X → count_words X (w1 :: w2 :: r) = count_words X (w2 :: r).
Proof. intros Hne. cbn [count_words]. by rewrite decide_False. Qed.

Lemma replace_words_head p h rest :
  replace_words X N (p ++ h) rest
  = (p ++ (replace_words X N h rest).1, (replace_words X N h rest).2).
Proof.
  revert h. induction rest as [|w|w1 w2 r IH2 IH1] using word_pair_ind; intros h.
  - done.
  - done.
  - destruct (decide (w1 = X)) as [->|Hne].
    + rewrite !replace_words_hit, <- app_assoc. apply IH2.
    + by rewrite !replace_words_miss.
Qed.

Lemma join_replace_words h rest :
  join (replace_words X N h rest) = h ++ join (replace_words X N [] rest).
Proof.
  rewrite <- (app_nil_r h) at 1. rewrite replace_words_head.
  unfold join. cbn [fst snd]. by rewrite <- app_assoc.
Qed.

Lemma startswith_tok_plain c s : c ≠ dquote → startswith (tok X) (c :: s) = false.
Proof.
  intros Hc. unfold tok. cbn [startswith].
  destruct (Ascii.eqb_spec dquote c) as [<-|_]; done.
Qed.

Lemma replace_from_plain h s :
  dquote ∉ h → replace_from (tok X) N 0 (h ++ s) = h ++ replace_from (tok X) N 0 s.
Proof.
  induction h as [|c h IH]; intros Hh; [done|].
  apply not_elem_of_cons in Hh as [Hc Hh]. simpl app.
  rewrite replace_from_step by (by apply startswith_tok_plain).
  by rewrite IH.
Qed.

Lemma count_from_plain h s :
  dquote ∉ h → count_from (tok X) 0 (h ++ s) = count_from (tok X) 0 s.
Proof.
  induction h as [|c h IH]; intros Hh; [done|].
  apply not_elem_of_cons in Hh as [Hc Hh]. simpl app.
  rewrite count_from_step by (by apply startswith_tok_plain).
  by rewrite IH.
Qed.

(** Two texts that agree up to their first double quote. *)
Lemma first_quote_unique (a b x y : text) :
  dquote ∉ a → dquote ∉ b → a ++ dquote :: x = b ++ dquote :: y → a = b ∧ x = y.
Proof.
  revert b. induction a as [|c a IH]; intros [|d b] Ha Hb Heq; simplify_eq/=.
  - done.
  - by apply not_elem_of_cons in Hb as [? ?].
  - by apply not_elem_of_cons in Ha as [? ?].
  - apply not_elem_of_cons in Ha as [? ?]. apply not_elem_of_cons in Hb as [? ?].
    destruct (IH b) as [-> ->]; done.
Qed.

Lemma startswith_tok_last w :
  dquote ∉ w → startswith (tok X) (dquote :: w) = false.
Proof.
  intros Hw. apply not_true_is_false. rewrite startswith_spec.
  intros [r Hr]. unfold tok in Hr. simpl in Hr. injection Hr as ->.
  apply Hw. rewrite <- app_assoc. apply elem_of_app. right. by left.
Qed.

Lemma startswith_tok_word w t :
  dquote ∉ w → startswith (tok X) (dquote :: w ++ dquote :: t) = true ↔ w = X.
Proof.
  intros Hw. rewrite startswith_spec. unfold tok. split.
  - intros [r Hr]. simpl in Hr. injection Hr as Hr.
    rewrite <- app_assoc in Hr. simpl in Hr.
    by apply first_quote_unique in Hr as [-> _].
  - intros ->. exists t. simpl. by rewrite <- app_assoc.
Qed.

Lemma tok_app t : dquote :: X ++ dquote :: t = tok X ++ t.
Proof. unfold tok. simpl. by rewrite <- app_assoc. Qed.

(** [replace] and [count] on a text are [replace_words] and [count_words]
    on its words. *)
Lemma replace_from_words h rest :
  dquote ∉ h → Forall (λ w, dquote ∉ w) rest →
  replace_from (tok X) N 0 (join (h, rest)) = join (replace_words X N h rest).
Proof.
  intros Hh Hrest. rewrite join_replace_words. unfold join at 1. cbn [fst snd].
  rewrite replace_from_plain by done. f_equal. clear h Hh.
  induction rest as [|w|w1 w2 r IH2 IH1] using word_pair_ind.
  - done.
  - apply Forall_cons in Hrest as [Hw _]. cbn [join_rest replace_words].
    rewrite app_nil_r.
    rewrite replace_from_step by (by apply startswith_tok_last).
    rewrite <- (app_nil_r w) at 1. by rewrite replace_from_plain.
  - apply Forall_cons in Hrest as [Hw1 Hrest].
    pose proof Hrest as [Hw2 Hr]%Forall_cons.
    cbn [join_rest]. destruct (decide (w1 = X)) as [->|Hne].
    + rewrite replace_words_hit, tok_app, replace_from_match by done.
      rewrite join_replace_words, replace_from_plain by done.
      rewrite IH2 by done. simpl. by rewrite <- app_assoc.
    + rewrite replace_words_miss by done.
      rewrite replace_from_step; last first.
      { apply not_true_iff_false. by rewrite startswith_tok_word. }
      rewrite replace_from_plain by done.
      change (dquote :: w2 ++ join_rest r) with (join_rest (w2 :: r)).
      rewrite IH1 by done. unfold join at 2. cbn [fst snd app join_rest].
      f_equal. rewrite <- (join_replace_words w1). done.
Qed.

Lemma count_from_words h rest :
  dquote ∉ h → Forall (λ w, dquote ∉ w) rest →
  count_from (tok X) 0 (join (h, rest)) = count_words X rest.
Proof.
  intros Hh Hrest. unfold join. cbn [fst snd].
  rewrite count_from_plain by done. clear h Hh.
  induction rest as [|w|w1 w2 r IH2 IH1] using word_pair_ind.
  - done.
  - apply Forall_cons in Hrest as [Hw _]. cbn [join_rest count_words].
    rewrite app_nil_r.
    rewrite count_from_step by (by apply startswith_tok_last).
    rewrite <- (app_nil_r w) at 1. by rewrite count_from_plain.
  - apply Forall_cons in Hrest as [Hw1 Hrest].
    pose proof Hrest as [Hw2 Hr]%Forall_cons.
    cbn [join_rest]. destruct (decide (w1 = X)) as [->|Hne].
    + rewrite count_words_hit, tok_app, count_from_match by done.
      rewrite count_from_plain by done. by rewrite IH2.
    + rewrite count_words_miss by done.
      rewrite count_from_step; last first.
      { apply not_true_iff_false. by rewrite startswith_tok_word. }
      rewrite count_from_plain by done.
      change (dquote :: w2 ++ join_rest r) with (join_rest (w2 :: r)).
      by rewrite IH1.
Qed.

Lemma mids_cons w rest : ∀ x, x ∈ mids rest → x ∈ mids (w :: rest).
Proof.
  intros x Hx. destruct rest as [|w' rest]; [by apply elem_of_nil in Hx|].
  cbn [mids]. by right.
Qed.

Lemma mids_cons_cons w1 w2 r : mids (w1 :: w2 :: r) = w1 :: mids (w2 :: r).
Proof. done. Qed.

Lemma count_words_zero rest : X ∉ mids rest → count_words X rest = 0.
Proof.
  induction rest as [|w|w1 w2 r IH2 IH1] using word_pair_ind; [done..|].
  rewrite mids_cons_cons. intros [Hne Hr]%not_elem_of_cons.
  rewrite count_words_miss by done. by apply IH1.
Qed.

Hypothesis N_plain : dquote ∉ N.

Lemma replace_words_plain h rest :
  dquote ∉ h → Forall (λ w, dquote ∉ w) rest →
  (dquote ∉ (replace_words X N h rest).1)
  ∧ Forall (λ w, dquote ∉ w) (replace_words X N h rest).2.
Proof.
  revert h. induction rest as [|w|w1 w2 r IH2 IH1] using word_pair_ind;
    intros h Hh Hrest; [done..|].
  apply Forall_cons in Hrest as [Hw1 Hrest].
  pose proof Hrest as [Hw2 Hr]%Forall_cons.
  destruct (decide (w1 = X)) as [->|Hne].
  - rewrite replace_words_hit. apply IH2; [|done].
    rewrite !not_elem_of_app. done.
  - rewrite replace_words_miss by done. cbn [fst snd].
    destruct (IH1 w1) as [? ?]; [done..|]. split; [done|]. by constructor.
Qed.

Hypothesis N_mark : underscore ∈ N.

(** After a pass the middle words are middle words from before that are
    not the name, or they hold a new token; the first word is the one from
    before or holds a new token. *)
Lemma replace_words_mids h rest :
  ((replace_words X N h rest).1 = h ∨ underscore ∈ (replace_words X N h rest).1)
  ∧ Forall (λ w, (w ∈ mids rest ∧ w ≠ X) ∨ underscore ∈ w)
      (mids (replace_words X N h rest).2).
Proof.
  revert h. induction rest as [|w|w1 w2 r IH2 IH1] using word_pair_ind; intros h.
  - split; [by left|constructor].
  - split; [by left|constructor].
  - destruct (decide (w1 = X)) as [->|Hne].
    + rewrite replace_words_hit. destruct (IH2 (h ++ N ++ w2)) as [Hh Hm]. split.
      * right. destruct Hh as [->|?]; [|done].
        rewrite !elem_of_app. eauto.
      * eapply Forall_impl; [exact Hm|]. intros w [[Hin ?]|?]; [left|by right].
        split; [|done]. by do 2 apply mids_cons.
    + rewrite replace_words_miss by done. cbn [fst snd]. split; [by left|].
      destruct (IH1 w1) as [Hh Hm].
      destruct (replace_words X N w1 (w2 :: r)).2 as [|a b] eqn:E; [constructor|].
      rewrite mids_cons_cons. constructor.
      * destruct Hh as [->|?]; [left|by right]. split; [by left|done].
      * eapply Forall_impl; [exact Hm|]. intros w [[Hin ?]|?]; [left|by right].
        split; [|done]. by right.
Qed.

End Replace.

(** ** The passes of a table on the words of a text *)

Lemma tok_nonempty X : tok X ≠ [].
Proof. done. Qed.

Lemma apply_mappings_words nm :
  Forall wf_name nm →
  ∀ ws n, plain_words ws →
    (apply_mappings (tokens_of nm) (join ws, n)).1 = join (pass_words nm ws)
    ∧ plain_words (pass_words nm ws).
Proof.
  induction nm as [|[X N] nm IH]; intros Hwf ws n Hws; [done|].
  apply Forall_cons in Hwf as [(HX & _ & HN & _) Hwf]. cbn [fst snd] in *.
  destruct ws as [h rest]. destruct Hws as [Hh Hrest]. cbn [fst snd] in *.
  unfold apply_mappings, pass_words. cbn [tokens_of map fold_left fst snd].
  rewrite replace_step_unguarded by apply tok_nonempty.
  change (str_replace (join (h, rest)) (tok X) N)
    with (replace_from (tok X) N 0 (join (h, rest))).
  rewrite replace_from_words by done.
  apply IH; [done|]. by apply replace_words_plain.
Qed.

Lemma pass_words_clean nm :
  Forall wf_name nm →
  ∀ (S : list text) ws,
    (∀ x, x ∈ S → underscore ∉ x) →
    Forall (λ w, w ∉ S) (mids ws.2) →
    Forall (λ w, w ∉ S ++ nm.*1) (mids (pass_words nm ws).2).
Proof.
  induction nm as [|[X N] nm IH]; intros Hwf S ws HS Hm.
  - simpl. by rewrite app_nil_r.
  - apply Forall_cons in Hwf as [(HX & HXu & HN & _ & HNu) Hwf]. cbn [fst snd] in *.
    unfold pass_words. cbn [fold_left fst snd fmap list_fmap].
    replace (S ++ X :: nm.*1) with ((S ++ [X]) ++ nm.*1) by (by rewrite <- app_assoc).
    apply IH; [done| |].
    + intros x [?|Hx]%elem_of_app; [by apply HS|].
      by apply list_elem_of_singleton in Hx as ->.
    + destruct (replace_words_mids X N HNu ws.1 ws.2) as [_ Hm'].
      rewrite Forall_forall in Hm, Hm' |- *. intros w Hw.
      destruct (Hm' w Hw) as [[Hin Hne]|Hu].
      * rewrite not_elem_of_app. split; [by apply Hm|].
        by intros ?%list_elem_of_singleton.
      * intros [?|Hx]%elem_of_app; [by eapply HS|].
        by apply list_elem_of_singleton in Hx as ->.
Qed.

(** After the passes of a well-formed table no old token of the table is
    left. *)
Lemma apply_mappings_names_clean nm s n :
  Forall wf_name nm → token_free (tokens_of nm) (apply_mappings (tokens_of nm) (s, n)).1.
Proof.
  intros Hwf. destruct (text_words s) as (ws & -> & Hws).
  destruct (apply_mappings_words _ Hwf ws n Hws) as [-> Hplain].
  assert (Forall (λ w, w ∉ nm.*1) (mids (pass_words nm ws).2)) as Hclean.
  { apply (pass_words_clean _ Hwf [] ws).
    - by intros x ?%elem_of_nil.
    - apply Forall_forall. intros x _. apply not_elem_of_nil. }
  intros old new Hin. unfold tokens_of in Hin.
  apply list_elem_of_fmap in Hin as ([X N] & [= -> ->] & Hin).
  rewrite <- str_count_zero.
  change (str_count (join (pass_words nm ws)) (tok X))
    with (count_from (tok X) 0 (join (pass_words nm ws))).
  pose proof (proj1 (Forall_forall _ _) Hwf _ Hin) as (HX & _). cbn [fst] in HX.
  destruct (pass_words nm ws) as [h rest]. destruct Hplain as [? ?].
  rewrite count_from_words by done. apply count_words_zero.
  intros Hmid. apply (proj1 (Forall_forall _ _) Hclean X Hmid).
  apply list_elem_of_fmap. by exists (X, N).
Qed.

(** After the passes of a well-formed table no old token of the table is
    left. *)
Lemma wf_table_names m :
  wf_table m → tokens_of (names m) = m ∧ Forall wf_name (names m).
Proof.
  induction m as [|[old new] m IH]; intros Hwf; [by split|].
  apply Forall_cons in Hwf as [[Htok Hname] Hwf]. destruct (IH Hwf) as [Hm Hnm].
  cbn [fst snd] in *. split.
  - unfold tokens_of, names in *. cbn [map fst snd]. by rewrite Htok, Hm.
  - by constructor.
Qed.

Lemma apply_mappings_clean m s n :
  wf_table m → token_free m (apply_mappings m (s, n)).1.
Proof.
  intros [Hm Hwf]%wf_table_names. rewrite <- Hm at 1 2.
  by apply apply_mappings_names_clean.
Qed.

(** A second pass finds nothing. *)
Lemma apply_mappings_idempotent m s n :
  wf_table m →
  apply_mappings m ((apply_mappings m (s, n)).1, 0) = ((apply_mappings m (s, n)).1, 0).
Proof. intros Hwf. by apply apply_mappings_token_free, apply_mappings_clean. Qed.

(** Both tables are well formed. *)
Lemma COLUMN_MAPPINGS_wf : wf_table FixHandlers.COLUMN_MAPPINGS.
Proof. unfold wf_table, wf_entry, wf_name. apply (bool_decide_unpack _). by vm_compute. Qed.

Lemma REPLACEMENTS_wf : wf_table UpdateSql.REPLACEMENTS.
Proof. unfold wf_table, wf_entry, wf_name. apply (bool_decide_unpack _). by vm_compute. Qed.

(** ** New tokens bring no backtick *)

Lemma replace_from_notin c old new k s :
  c ∉ new → c ∉ s → c ∉ replace_from old new k s.
Proof.
  intros Hnew. revert k. induction s as [|a s IH]; intros k Hs; [done|].
  apply not_elem_of_cons in Hs as [Hc Hs]. destruct k as [|k]; cbn [replace_from].
  - destruct (startswith old (a :: s)).
    + rewrite not_elem_of_app. split; [done|]. by apply IH.
    + apply not_elem_of_cons. split; [done|]. by apply IH.
  - by apply IH.
Qed.

Lemma apply_mappings_notin c nm s n :
  Forall (λ e, c ∉ e.2) nm → c ∉ s → c ∉ (apply_mappings (tokens_of nm) (s, n)).1.
Proof.
  revert s n. induction nm as [|[X N] nm IH]; intros s n Hnm Hs; [done|].
  apply Forall_cons in Hnm as [HN Hnm]. cbn [snd] in HN.
  unfold apply_mappings. cbn [tokens_of map fold_left fst snd].
  rewrite replace_step_unguarded by apply tok_nonempty.
  apply IH; [done|]. by apply replace_from_notin.
Qed.

Lemma apply_mappings_no_backtick m s n :
  wf_table m → backtick ∉ s → backtick ∉ (apply_mappings m (s, n)).1.
Proof.
  intros [Hm Hwf]%wf_table_names. rewrite <- Hm. apply apply_mappings_notin.
  eapply Forall_impl; [exact Hwf|]. by intros e (_ & _ & _ & ? & _).
Qed.

(** ** A second run of [update_sql_in_content] finds nothing *)

Lemma update_sql_idempotent m s :
  wf_table m →
  UpdateSql.update_sql_in_content_with m (UpdateSql.update_sql_in_content_with m s).1
  = ((UpdateSql.update_sql_in_content_with m s).1, 0).
Proof.
  intros Hwf. remember (length s) as k eqn:Hk. revert s Hk.
  induction k as [k IH] using lt_wf_ind. intros s ->.
  destruct (first_block s) as [Hb|[(p & tail & -> & Hp & Htail)
                                  |(p & body & rest & -> & Hp & Hbody)]].
  - rewrite (update_sql_plain m s) by done. by apply update_sql_plain.
  - rewrite (update_sql_unpaired m p tail) by done. by apply update_sql_unpaired.
  - rewrite (update_sql_block m p body rest) by done. cbn [fst].
    rewrite update_sql_block by (done || by apply apply_mappings_no_backtick).
    rewrite apply_mappings_idempotent by done.
    rewrite (IH _ (length_block p body rest) rest eq_refl). done.
Qed.

(** ** Idempotence *)

Lemma replace_loop_idempotent m s w out n w' :
  wf_table m →
  FixHandlers.replace_loop m (s, 0) w = (Ok (out, n), w') →
  ∀ w2, FixHandlers.replace_loop m (out, 0) w2 = (Ok (out, 0), w2).
Proof.
  intros Hwf Hfirst w2. rewrite replace_loop_spec in Hfirst.
  injection Hfirst as Hout _.
  assert (token_free m out) as Hfree.
  { pose proof (apply_mappings_clean _ s 0 Hwf) as Hc. by rewrite Hout in Hc. }
  rewrite replace_loop_spec, apply_mappings_token_free by done.
  by rewrite report_token_free, logged_nil.
Qed.

(** C4: a pass over the output of a pass changes nothing and counts
    nothing: the loop of [update_file] returns the text with 0 and prints no
    line, and so does [update_sql_in_content]. *)
Theorem C4_idempotent (s : text) :
  (∀ w out n w',
     FixHandlers.replace_loop FixHandlers.COLUMN_MAPPINGS (s, 0) w = (Ok (out, n), w') →
     ∀ w2, FixHandlers.replace_loop FixHandlers.COLUMN_MAPPINGS (out, 0) w2
           = (Ok (out, 0), w2))
  ∧ UpdateSql.update_sql_in_content (UpdateSql.update_sql_in_content s).1
    = ((UpdateSql.update_sql_in_content s).1, 0).
Proof.
  split.
  - intros w out n w'. apply replace_loop_idempotent, COLUMN_MAPPINGS_wf.
  - apply update_sql_idempotent, REPLACEMENTS_wf.
Qed.

(** ** All replacements at once *)

Lemma replace_all_words_hit (d : gmap text text) h w1 w2 r N :
  d !! w1 = Some N →
  replace_all_words d h (w1 :: w2 :: r) = replace_all_words d (h ++ N ++ w2) r.
Proof. intros Hd. cbn [replace_all_words]. by rewrite Hd. Qed.

Lemma replace_all_words_miss (d : gmap text text) h w1 w2 r :
  d !! w1 = None →
  replace_all_words d h (w1 :: w2 :: r)
  = (h, (replace_all_words d w1 (w2 :: r)).1 :: (replace_all_words d w1 (w2 :: r)).2).
Proof. intros Hd. cbn [replace_all_words]. by rewrite Hd. Qed.

Lemma replace_all_words_head (d : gmap text text) p h rest :
  replace_all_words d (p ++ h) rest
  = (p ++ (replace_all_words d h rest).1, (replace_all_words d h rest).2).
Proof.
  revert h. induction rest as [|w|w1 w2 r IH2 IH1] using word_pair_ind; intros h.
  - done.
  - done.
  - destruct (d !! w1) as [N|] eqn:Hd.
    + rewrite !(replace_all_words_hit _ _ _ _ _ N), <- app_assoc by done. apply IH2.
    + by rewrite !replace_all_words_miss.
Qed.

Section AllAtOnce.
Variable d : gmap text text.

Hypothesis d_mark : ∀ x N, d !! x = Some N → underscore ∈ N.

Lemma replace_all_words_first h rest :
  (replace_all_words d h rest).1 = h ∨ underscore ∈ (replace_all_words d h rest).1.
Proof.
  revert h. induction rest as [|w|w1 w2 r IH2 IH1] using word_pair_ind; intros h.
  - by left.
  - by left.
  - destruct (d !! w1) as [N|] eqn:Hd.
    + rewrite (replace_all_words_hit _ _ _ _ _ N) by done. right.
      destruct (IH2 (h ++ N ++ w2)) as [->|?]; [|done].
      rewrite !elem_of_app. right. left. by eapply d_mark.
    + rewrite replace_all_words_miss by done. by left.
Qed.

Hypothesis d_plain : ∀ x N, d !! x = Some N → dquote ∉ N.

Lemma replace_all_words_plain h rest :
  plain_words (h, rest) → plain_words (replace_all_words d h rest).
Proof.
  unfold plain_words. cbn [fst snd].
  revert h. induction rest as [|w|w1 w2 r IH2 IH1] using word_pair_ind;
    intros h [Hh Hrest]; [done..|].
  apply Forall_cons in Hrest as [Hw1 Hrest].
  pose proof Hrest as [Hw2 Hr]%Forall_cons.
  destruct (d !! w1) as [N|] eqn:Hd.
  - rewrite (replace_all_words_hit _ _ _ _ _ N) by done. apply IH2. split; [|done].
    rewrite !not_elem_of_app. split_and!; [done| |done]. by eapply d_plain.
  - rewrite replace_all_words_miss by done. cbn [fst snd].
    destruct (IH1 w1) as [? ?]; [done|]. split; [done|]. by constructor.
Qed.

Variables (D : text → Prop) (X N : text).
Hypothesis D_plain : ∀ x, D x → underscore ∉ x.
Hypothesis d_D : ∀ x N, d !! x = Some N → D x.
Hypothesis X_D : D X.
Hypothesis X_new : d !! X = None.

Lemma no_adjacent_tail w rest : no_adjacent D (w :: rest) → no_adjacent D rest.
Proof. by intros [_ ?]. Qed.

Lemma no_adjacent_pair w1 w2 w3 r :
  no_adjacent D (w1 :: w2 :: w3 :: r) → D w1 → ¬ D w2.
Proof. intros [Hc _] H1 H2. by apply Hc. Qed.

(** One more pass, for a name that is not yet in the dictionary, is the
    scan with that name added. *)
Lemma replace_words_all h rest :
  no_adjacent D rest →
  replace_words X N (replace_all_words d h rest).1 (replace_all_words d h rest).2
  = replace_all_words (<[X := N]> d) h rest.
Proof.
  revert h. induction rest as [|w|w1 w2 r IH2 IH1] using word_pair_ind;
    intros h Hadj; [done..|].
  pose proof (no_adjacent_tail _ _ Hadj) as Hadj1.
  pose proof (no_adjacent_tail _ _ Hadj1) as Hadj2.
  destruct (d !! w1) as [N1|] eqn:Hd.
  - assert (w1 ≠ X) as Hne by (intros ->; congruence).
    rewrite (replace_all_words_hit d _ _ _ _ N1) by done.
    rewrite (replace_all_words_hit (<[X:=N]> d) _ _ _ _ N1)
      by (by rewrite lookup_insert_ne).
    by apply IH2.
  - rewrite (replace_all_words_miss d) by done. cbn [fst snd].
    destruct (decide (w1 = X)) as [->|Hne].
    + rewrite (replace_all_words_hit (<[X:=N]> d) _ _ _ _ N)
        by (by rewrite lookup_insert_eq).
      destruct r as [|w3 r].
      * cbn [replace_all_words fst snd]. by rewrite replace_words_hit.
      * assert (d !! w2 = None) as Hd2.
        { destruct (d !! w2) as [N2|] eqn:Hd2; [|done].
          exfalso. eapply no_adjacent_pair; eauto. }
        rewrite (replace_all_words_miss d X) by done. cbn [fst snd].
        rewrite replace_words_hit. rewrite <- (IH2 (h ++ N ++ w2) Hadj2).
        rewrite (app_assoc h N w2), replace_all_words_head. cbn [fst snd].
        by rewrite <- app_assoc.
    + rewrite (replace_all_words_miss (<[X:=N]> d))
        by (by rewrite lookup_insert_ne).
      rewrite <- (IH1 w1 Hadj1).
      destruct (replace_all_words_first w1 (w2 :: r)) as [Hfirst|Hfirst].
      * destruct (replace_all_words d w1 (w2 :: r)) as [a [|b1 b]]; [done|].
        cbn [fst snd] in *. subst a. by rewrite replace_words_miss.
      * destruct (replace_all_words d w1 (w2 :: r)) as [a [|b1 b]]; [done|].
        cbn [fst snd] in *. rewrite replace_words_miss; [done|].
        intros ->. by apply (D_plain X).
Qed.

Lemma middle_count_cons_cons w1 w2 r :
  middle_count X (w1 :: w2 :: r)
  = (if decide (w1 = X) then 1 else 0) + middle_count X (w2 :: r).
Proof.
  unfold middle_count. rewrite mids_cons_cons, filter_cons.
  by destruct (decide (w1 = X)).
Qed.

Lemma middle_count_last w : middle_count X [w] = 0.
Proof. done. Qed.

(** What the pass counts: the middle words that are the name. *)
Lemma count_words_all h rest :
  no_adjacent D rest →
  count_words X (replace_all_words d h rest).2 = middle_count X rest.
Proof.
  revert h. induction rest as [|w|w1 w2 r IH2 IH1] using word_pair_ind;
    intros h Hadj; [done..|].
  pose proof (no_adjacent_tail _ _ Hadj) as Hadj1.
  pose proof (no_adjacent_tail _ _ Hadj1) as Hadj2.
  rewrite middle_count_cons_cons.
  destruct (d !! w1) as [N1|] eqn:Hd.
  - assert (w1 ≠ X) as Hne by (intros ->; congruence).
    rewrite (replace_all_words_hit d _ _ _ _ N1), decide_False by done.
    rewrite IH2 by done. destruct r as [|w3 r]; [done|].
    rewrite middle_count_cons_cons, decide_False; [done|].
    intros ->. eapply no_adjacent_pair; eauto.
  - rewrite (replace_all_words_miss d) by done. cbn [fst snd].
    destruct (decide (w1 = X)) as [->|Hne].
    + destruct r as [|w3 r].
      * cbn [replace_all_words fst snd]. by rewrite count_words_hit.
      * assert (¬ D w2) as HD2 by (eapply no_adjacent_pair; eauto).
        assert (d !! w2 = None) as Hd2.
        { destruct (d !! w2) as [N2|] eqn:Hd2; [|done]. exfalso. eauto. }
        rewrite (replace_all_words_miss d X) by done. cbn [fst snd].
        rewrite count_words_hit, (IH2 w2 Hadj2).
        rewrite middle_count_cons_cons, decide_False; [done|].
        by intros ->.
    + rewrite <- (IH1 w1 Hadj1).
      destruct (replace_all_words_first w1 (w2 :: r)) as [Hfirst|Hfirst].
      * destruct (replace_all_words d w1 (w2 :: r)) as [a [|b1 b]]; [done|].
        cbn [fst snd] in *. subst a. by rewrite count_words_miss.
      * destruct (replace_all_words d w1 (w2 :: r)) as [a [|b1 b]]; [done|].
        cbn [fst snd] in *. rewrite count_words_miss; [done|].
        intros ->. by apply (D_plain X).
Qed.

End AllAtOnce.

Lemma replace_all_words_empty h rest : replace_all_words ∅ h rest = (h, rest).
Proof.
  revert h. induction rest as [|w|w1 w2 r IH2 IH1] using word_pair_ind; intros h.
  - done.
  - done.
  - rewrite replace_all_words_miss by apply lookup_empty. by rewrite IH1.
Qed.

(** ** The passes of a table, in any order *)

Lemma dict_of_lookup (nm : list (text * text)) (d : gmap text text) x :
  NoDup nm.*1 →
  dict_of nm d !! x
  = match (list_to_map nm : gmap text text) !! x with
    | Some N => Some N
    | None => d !! x
    end.
Proof.
  revert d. induction nm as [|[X N] nm IH]; intros d Hnd.
  - simpl. by rewrite lookup_empty.
  - apply NoDup_cons in Hnd as [HX Hnd]. unfold dict_of in *.
    cbn [fold_left fst snd]. rewrite IH by done.
    rewrite list_to_map_cons. destruct (decide (x = X)) as [->|Hne].
    + rewrite not_elem_of_list_to_map_1 by done. by rewrite !lookup_insert_eq.
    + by rewrite !lookup_insert_ne.
Qed.

Lemma dict_of_perm (nm nm' : list (text * text)) :
  NoDup nm.*1 → nm ≡ₚ nm' → dict_of nm ∅ = dict_of nm' ∅.
Proof.
  intros Hnd Hperm. apply map_eq. intros x.
  rewrite !dict_of_lookup; [|by rewrite <- Hperm|done].
  by rewrite (list_to_map_proper nm nm').
Qed.

Lemma apply_mappings_all (D : text → Prop) (nm : list (text * text)) :
  (∀ x, D x → underscore ∉ x) →
  Forall wf_name nm → NoDup nm.*1 →
  ∀ (d : gmap text text) h rest n,
    (∀ x N, d !! x = Some N → D x ∧ underscore ∈ N ∧ dquote ∉ N) →
    (∀ x, x ∈ nm.*1 → D x ∧ d !! x = None) →
    plain_words (h, rest) → no_adjacent D rest →
    apply_mappings (tokens_of nm) (join (replace_all_words d h rest), n)
    = (join (replace_all_words (dict_of nm d) h rest),
       n + sum_list_with (λ e, middle_count e.1 rest) nm).
Proof.
  intros HD. induction nm as [|[X N] nm IH]; intros Hwf Hnd d h rest n Hd Hnm Hplain Hadj.
  - simpl. by rewrite Nat.add_0_r.
  - apply Forall_cons in Hwf as [(HX & HXu & HN & _ & HNu) Hwf].
    apply NoDup_cons in Hnd as [HXnm Hnd]. cbn [fst snd] in *.
    destruct (Hnm X) as [HDX HdX]; [by left|].
    unfold apply_mappings. cbn [tokens_of map fold_left fst snd].
    rewrite replace_step_unguarded by apply tok_nonempty.
    change (str_replace ?s (tok X) N) with (replace_from (tok X) N 0 s).
    change (str_count ?s (tok X)) with (count_from (tok X) 0 s).
    assert (plain_words (replace_all_words d h rest)) as [Hp1 Hp2].
    { apply replace_all_words_plain; [|done]. intros x N' Hx.
      by destruct (Hd _ _ Hx) as (_ & _ & ?). }
    destruct (replace_all_words d h rest) as [h' rest'] eqn:E. cbn [fst snd] in *.
    rewrite replace_from_words, count_from_words by done.
    pose proof (replace_words_all d (λ x N' Hx, proj1 (proj2 (Hd x N' Hx)))
                  D X N HD (λ x N' Hx, proj1 (Hd x N' Hx)) HDX HdX h rest Hadj) as Hrw.
    pose proof (count_words_all d (λ x N' Hx, proj1 (proj2 (Hd x N' Hx)))
                  D X HD (λ x N' Hx, proj1 (Hd x N' Hx)) HDX HdX h rest Hadj) as Hcw.
    rewrite E in Hrw, Hcw. cbn [fst snd] in *. rewrite Hrw, Hcw.
    fold (apply_mappings (tokens_of nm)
            (join (replace_all_words (<[X:=N]> d) h rest), n + middle_count X rest)).
    rewrite IH; [f_equal|done..| | |done|done].
    + cbn [sum_list_with fst]. lia.
    + intros x N' Hx. destruct (decide (x = X)) as [->|Hne].
      * rewrite lookup_insert_eq in Hx. injection Hx as <-. done.
      * rewrite lookup_insert_ne in Hx by done. by apply Hd.
    + intros x Hx. destruct (Hnm x) as [? ?]; [by right|]. split; [done|].
      rewrite lookup_insert_ne; [done|]. by intros ->.
Qed.

(** Two old tokens that overlap share a double quote: their names are
    neighbours among the middle words. *)
Lemma overlap_free_no_adjacent (nm : list (text * text)) h rest :
  overlap_free (tokens_of nm) (join (h, rest)) →
  no_adjacent (λ x, x ∈ nm.*1) rest.
Proof.
  revert h. induction rest as [|w1 rest1 IH]; intros h Hfree; [done|].
  split.
  - destruct rest1 as [|w2 [|w3 r]]; [done..|]. cbn [mids].
    intros [H1 H2].
    apply list_elem_of_fmap in H1 as ([X1 N1] & -> & H1).
    apply list_elem_of_fmap in H2 as ([X2 N2] & -> & H2). cbn [fst] in *.
    assert ((tok X1, N1) ∈ tokens_of nm) as Ht1.
    { apply list_elem_of_fmap. by exists (X1, N1). }
    assert ((tok X2, N2) ∈ tokens_of nm) as Ht2.
    { apply list_elem_of_fmap. by exists (X2, N2). }
    pose proof (Hfree (length h) (length (h ++ dquote :: X1))
                  _ _ _ _ Ht1 Ht2) as Hov.
    unfold tok in Hov. rewrite length_app in Hov. simpl in Hov.
    rewrite length_app in Hov. simpl in Hov.
    enough (length h + S (length X1 + 1) ≤ length h + S (length X1)) by lia.
    apply Hov; [| |lia].
    + exists h, (X2 ++ dquote :: w3 ++ join_rest r). split; [|done].
      unfold join. simpl. by rewrite <- ?app_assoc.
    + exists (h ++ dquote :: X1), (w3 ++ join_rest r). split.
      * unfold join. simpl. rewrite <- !app_assoc. simpl.
        by rewrite <- ?app_assoc.
      * by rewrite length_app.
  - apply (IH (h ++ dquote :: w1)). unfold join in *. cbn [fst snd join_rest] in *.
    by rewrite <- app_assoc.
Qed.

Lemma names_fst_perm (m m' : list (text * text)) : m' ≡ₚ m → (names m').*1 ≡ₚ (names m).*1.
Proof. intros Hp. unfold names. by rewrite Hp. Qed.

(** The passes of a well-formed table come to the same text and the same
    total in any order, on a text in which no two old tokens overlap. *)
Lemma apply_mappings_perm (m m' : list (text * text)) s n :
  wf_table m → NoDup (names m).*1 → m' ≡ₚ m → overlap_free m s →
  apply_mappings m' (s, n) = apply_mappings m (s, n).
Proof.
  intros Hwf Hnd Hperm Hfree.
  assert (wf_table m') as Hwf' by (unfold wf_table; by rewrite Hperm).
  assert (names m' ≡ₚ names m) as Hpn by (unfold names; by rewrite Hperm).
  assert (NoDup (names m').*1) as Hnd' by (by rewrite Hpn).
  apply wf_table_names in Hwf as [Hm Hnm]. apply wf_table_names in Hwf' as [Hm' Hnm'].
  destruct (text_words s) as ([h rest] & -> & Hplain).
  assert (no_adjacent (λ x, x ∈ (names m).*1) rest) as Hadj.
  { apply (overlap_free_no_adjacent _ h). by rewrite Hm. }
  assert (∀ x, x ∈ (names m).*1 → underscore ∉ x) as HD.
  { intros x ([X N] & -> & Hin)%list_elem_of_fmap.
    by destruct (proj1 (Forall_forall _ _) Hnm _ Hin) as (_ & ? & _). }
  rewrite <- (replace_all_words_empty h rest).
  rewrite <- Hm at 1. rewrite <- Hm' at 1.
  rewrite (apply_mappings_all (λ x, x ∈ (names m).*1) (names m)); try done.
  rewrite (apply_mappings_all (λ x, x ∈ (names m).*1) (names m')); try done.
  - f_equal.
    + f_equal. f_equal. symmetry. by apply dict_of_perm.
    + f_equal. by rewrite Hpn.
  - intros x Hx. split; [by rewrite <- Hpn|apply lookup_empty].
Qed.

Lemma occurs_at_infix (t a b c : text) i :
  occurs_at t i b → occurs_at t (length a + i) (a ++ b ++ c).
Proof.
  intros (x & y & -> & <-). exists (a ++ x), (y ++ c). split.
  - by rewrite <- !app_assoc.
  - by rewrite length_app.
Qed.

Lemma overlap_free_infix (m : list (text * text)) (a b c : text) :
  overlap_free m (a ++ b ++ c) → overlap_free m b.
Proof.
  intros Hfree i j o1 n1 o2 n2 H1 H2 Hi Hj Hlt.
  pose proof (Hfree (length a + i) (length a + j) o1 n1 o2 n2 H1 H2
                (occurs_at_infix _ a b c i Hi) (occurs_at_infix _ a b c j Hj)).
  lia.
Qed.

Lemma overlap_free_block (m : list (text * text)) (pre body rest : text) :
  overlap_free m (pre ++ backtick :: body ++ backtick :: rest) →
  overlap_free m body ∧ overlap_free m rest.
Proof.
  intros Hfree. split.
  - apply (overlap_free_infix m (pre ++ [backtick]) body (backtick :: rest)).
    by rewrite <- !app_assoc.
  - apply (overlap_free_infix m (pre ++ backtick :: body ++ [backtick]) rest []).
    rewrite app_nil_r, <- !app_assoc. simpl. by rewrite <- !app_assoc.
Qed.

Lemma update_sql_perm (m m' : list (text * text)) s :
  wf_table m → NoDup (names m).*1 → m' ≡ₚ m → overlap_free m s →
  UpdateSql.update_sql_in_content_with m' s = UpdateSql.update_sql_in_content_with m s.
Proof.
  intros Hwf Hnd Hperm. remember (length s) as k eqn:Hk. revert s Hk.
  induction k as [k IH] using lt_wf_ind. intros s -> Hfree.
  destruct (first_block s) as [Hb|[(p & tail & -> & Hp & Htail)
                                  |(p & body & rest & -> & Hp & Hbody)]].
  - by rewrite !update_sql_plain.
  - by rewrite !update_sql_unpaired.
  - apply overlap_free_block in Hfree as [Hfb Hfr].
    rewrite !update_sql_block by done.
    rewrite (apply_mappings_perm m m') by done.
    by rewrite (IH _ (length_block p body rest) rest eq_refl Hfr).
Qed.

(** ** Checking a text for overlaps *)

Lemma occurs_at_startswith (t s : text) i :
  occurs_at t i s → startswith t (drop i s) = true ∧ i ≤ length s.
Proof.
  intros (a & b & -> & <-). split.
  - rewrite drop_app_length. apply startswith_app.
  - rewrite length_app. lia.
Qed.

Lemma overlap_check_sound (m : list (text * text)) (s : text) :
  overlap_check m s → overlap_free m s.
Proof.
  intros Hcheck i j o1 n1 o2 n2 H1 H2 Hi Hj Hlt.
  apply occurs_at_startswith in Hi as [Hi Hil].
  apply occurs_at_startswith in Hj as [Hj Hjl].
  unfold overlap_check in Hcheck. rewrite Forall_forall in Hcheck.
  assert (i ∈ seq 0 (S (length s))) as Hiin by (apply elem_of_seq; lia).
  assert (j ∈ seq 0 (S (length s))) as Hjin by (apply elem_of_seq; lia).
  pose proof (Hcheck i Hiin) as Hc. rewrite Forall_forall in Hc.
  pose proof (Hc j Hjin) as Hc'. rewrite Forall_forall in Hc'.
  pose proof (Hc' _ H1) as Hc''. rewrite Forall_forall in Hc''.
  by apply (Hc'' _ H2).
Qed.

(** ** The two tables *)

Lemma COLUMN_MAPPINGS_names_NoDup : NoDup (names FixHandlers.COLUMN_MAPPINGS).*1.
Proof. apply (bool_decide_unpack _). by vm_compute. Qed.

Lemma REPLACEMENTS_names_NoDup : NoDup (names UpdateSql.REPLACEMENTS).*1.
Proof. apply (bool_decide_unpack _). by vm_compute. Qed.

(** The list of the second script is the dict of the first with the entry
    of [providerId] moved up. *)
Lemma REPLACEMENTS_perm : UpdateSql.REPLACEMENTS ≡ₚ FixHandlers.COLUMN_MAPPINGS.
Proof.
  unfold UpdateSql.REPLACEMENTS, FixHandlers.COLUMN_MAPPINGS.
  do 2 apply perm_skip.
  apply (Permutation_cons_app [_; _; _; _; _; _; _; _] [_]). reflexivity.
Qed.

Lemma swapped_mappings_perm : swapped_mappings ≡ₚ FixHandlers.COLUMN_MAPPINGS.
Proof. apply perm_swap. Qed.

Lemma overlap_free_perm (m m' : list (text * text)) s :
  m' ≡ₚ m → overlap_free m s → overlap_free m' s.
Proof.
  intros Hperm Hfree i j o1 n1 o2 n2 H1 H2. apply (Hfree i j o1 n1 o2 n2).
  - by rewrite <- Hperm.
  - by rewrite <- Hperm.
Qed.

(** ** Order of the entries *)

(** C8, as the code has it: on a text in which no two occurrences of old
    tokens overlap, the entries of the table can be applied in any order;
    the loop of [update_file] returns the same text and the same total, and
    so does [update_sql_in_content]. *)
Theorem C8_any_order (s : text) (m' : list (text * text)) :
  overlap_free FixHandlers.COLUMN_MAPPINGS s →
  (m' ≡ₚ FixHandlers.COLUMN_MAPPINGS →
   ∀ w, (FixHandlers.replace_loop m' (s, 0) w).1
        = (FixHandlers.replace_loop FixHandlers.COLUMN_MAPPINGS (s, 0) w).1)
  ∧ (m' ≡ₚ UpdateSql.REPLACEMENTS →
     UpdateSql.update_sql_in_content_with m' s = UpdateSql.update_sql_in_content s).
Proof.
  intros Hfree. split; intros Hperm.
  - intros w. rewrite !replace_loop_spec. cbn [fst]. f_equal.
    apply apply_mappings_perm; try done.
    + apply COLUMN_MAPPINGS_wf.
    + apply COLUMN_MAPPINGS_names_NoDup.
  - apply update_sql_perm; try done.
    + apply REPLACEMENTS_wf.
    + apply REPLACEMENTS_names_NoDup.
    + by apply (overlap_free_perm FixHandlers.COLUMN_MAPPINGS), Hfree;
        apply REPLACEMENTS_perm.
Qed.

(** C8 as stated fails where old tokens share a double quote.  In the
    text [overlapping] the table as written replaces the one token of
    teamId, after which no token of userId is left, while with the first
    two entries swapped both tokens of userId are replaced and the one of
    teamId is not: another text and another total. *)
Lemma C8_order_counterexample :
  swapped_mappings ≡ₚ FixHandlers.COLUMN_MAPPINGS
  ∧ apply_mappings FixHandlers.COLUMN_MAPPINGS (overlapping, 0)
    = (dquote :: txt "userIdteam_iduserId" ++ [dquote], 1)
  ∧ apply_mappings swapped_mappings (overlapping, 0)
    = (txt "user_idteamIduser_id", 2)
  ∧ swapped_mappings ≡ₚ UpdateSql.REPLACEMENTS
  ∧ UpdateSql.update_sql_in_content (backtick :: overlapping ++ [backtick])
    = (backtick :: dquote :: txt "userIdteam_iduserId" ++ [dquote; backtick], 1)
  ∧ UpdateSql.update_sql_in_content_with swapped_mappings
      (backtick :: overlapping ++ [backtick])
    = (backtick :: txt "user_idteamIduser_id" ++ [backtick], 2).
Proof.
  split_and!; try by vm_compute.
  - apply swapped_mappings_perm.
  - rewrite REPLACEMENTS_perm. apply swapped_mappings_perm.
Qed.

(** C8 for the example's text and the tables of the two scripts, each
    applied in the order of the other. *)
Lemma C8_any_order_witness :
  let w := World ∅ (λ _, None) (λ _, None) [] in
  (FixHandlers.replace_loop UpdateSql.REPLACEMENTS (example_in, 0) w).1
  = (FixHandlers.replace_loop FixHandlers.COLUMN_MAPPINGS (example_in, 0) w).1.
Proof.
  intros w.
  refine (proj1 (C8_any_order example_in UpdateSql.REPLACEMENTS _) _ w).
  - apply overlap_check_sound. apply (bool_decide_unpack _). by vm_compute.
  - apply REPLACEMENTS_perm.
Defined.

(** ** An occurrence inside a block *)

Lemma join_rest_app ra rb : join_rest (ra ++ rb) = join_rest ra ++ join_rest rb.
Proof.
  induction ra as [|w ra IH]; [done|]. simpl. by rewrite IH, app_assoc.
Qed.

(** The words of a text around an old token. *)
Lemma join_around (X : text) (wa wb : words) :
  join wa ++ tok X ++ join wb = join (wa.1, wa.2 ++ X :: wb.1 :: wb.2).
Proof.
  destruct wa as [ha ra], wb as [hb rb]. unfold join, tok. cbn [fst snd].
  rewrite join_rest_app. simpl. rewrite <- ?app_assoc. simpl.
  by rewrite <- ?app_assoc.
Qed.

Lemma no_adjacent_app_name (D : text → Prop) w X l :
  no_adjacent D (w :: X :: l) → l ≠ [] → D X → ¬ D w.
Proof.
  intros [Hc _] Hl HX Hw. destruct l as [|w3 l]; [done|]. by apply Hc.
Qed.

Section Split.
Variables (d : gmap text text) (D : text → Prop) (X N : text).
Hypothesis d_D : ∀ x N, d !! x = Some N → D x.
Hypothesis X_d : d !! X = Some N.

(** A name in the dictionary that is a middle word is replaced by the scan,
    and the words before and behind it are scanned as if they stood
    alone. *)
Lemma replace_all_words_split ha ra hb rb :
  no_adjacent D (ra ++ X :: hb :: rb) →
  join (replace_all_words d ha (ra ++ X :: hb :: rb))
  = join (replace_all_words d ha ra) ++ N ++ join (replace_all_words d hb rb).
Proof.
  revert ha. induction ra as [|w|w1 w2 r IH2 IH1] using word_pair_ind;
    intros ha Hadj.
  - cbn [app]. rewrite (replace_all_words_hit d _ _ _ _ N) by done.
    rewrite (replace_all_words_head d ha), (replace_all_words_head d N).
    unfold join. cbn [fst snd replace_all_words join_rest].
    by rewrite app_nil_r, <- ?app_assoc.
  - cbn [app] in *.
    assert (d !! w = None) as Hw.
    { destruct (d !! w) as [Nw|] eqn:Hw; [|done]. exfalso.
      apply (no_adjacent_app_name D w X (hb :: rb)); eauto. }
    rewrite replace_all_words_miss by done.
    rewrite (replace_all_words_hit d _ _ _ _ N) by done.
    rewrite (replace_all_words_head d w), (replace_all_words_head d N).
    unfold join. cbn [fst snd replace_all_words join_rest].
    rewrite app_nil_r, <- ?app_assoc. simpl. by rewrite <- ?app_assoc.
  - cbn [app] in *.
    pose proof (no_adjacent_tail D _ _ Hadj) as Hadj1.
    pose proof (no_adjacent_tail D _ _ Hadj1) as Hadj2.
    destruct (d !! w1) as [N1|] eqn:Hd.
    + rewrite !(replace_all_words_hit d _ _ _ _ N1) by done. by apply IH2.
    + rewrite !replace_all_words_miss by done.
      specialize (IH1 w1 Hadj1). cbn [app] in IH1.
      unfold join in *. cbn [fst snd join_rest] in *.
      rewrite IH1. by repeat (rewrite <- app_assoc || rewrite <- app_comm_cons).
Qed.

End Split.

(** In a text without overlapping old tokens, the passes of a table
    replace an old token where it stands and treat the text before and
    behind it on their own. *)
Lemma apply_mappings_around (m : list (text * text)) (old new a b : text) :
  wf_table m → NoDup (names m).*1 → (old, new) ∈ m →
  overlap_free m (a ++ old ++ b) →
  (apply_mappings m (a ++ old ++ b, 0)).1
  = (apply_mappings m (a, 0)).1 ++ new ++ (apply_mappings m (b, 0)).1.
Proof.
  intros Hwf Hnd Hin Hfree.
  apply wf_table_names in Hwf as [Hm Hnm].
  assert (overlap_free m a) as Hfa.
  { apply (overlap_free_infix m [] a (old ++ b)). done. }
  assert (overlap_free m b) as Hfb.
  { apply (overlap_free_infix m (a ++ old) b []).
    by rewrite app_nil_r, <- app_assoc. }
  rewrite <- Hm in Hin. unfold tokens_of in Hin.
  apply list_elem_of_fmap in Hin as ([X N] & [= -> ->] & Hin). cbn [fst snd] in *.
  destruct (text_words a) as ([ha ra] & -> & Hpa).
  destruct (text_words b) as ([hb rb] & -> & Hpb).
  rewrite join_around in Hfree |- *. cbn [fst snd] in *.
  set (D := λ x, x ∈ (names m).*1).
  assert (∀ x, D x → underscore ∉ x) as HD.
  { intros x ([X' N'] & -> & Hin')%list_elem_of_fmap.
    by destruct (proj1 (Forall_forall _ _) Hnm _ Hin') as (_ & ? & _). }
  assert (∀ h rest, plain_words (h, rest) → overlap_free m (join (h, rest)) →
          (apply_mappings m (join (h, rest), 0)).1
          = join (replace_all_words (dict_of (names m) ∅) h rest)) as Hall.
  { intros h rest Hplain Hf. rewrite <- (replace_all_words_empty h rest) at 1.
    rewrite <- Hm at 1.
    rewrite (apply_mappings_all D (names m)); try done.
    apply (overlap_free_no_adjacent _ h). by rewrite Hm. }
  assert (plain_words (ha, ra ++ X :: hb :: rb)) as Hpab.
  { destruct Hpa as [? ?], Hpb as [? ?]. split; [done|]. cbn [fst snd] in *.
    apply Forall_app. split; [done|]. constructor; [|by constructor].
    by destruct (proj1 (Forall_forall _ _) Hnm _ Hin) as (? & _). }
  rewrite !Hall by done.
  apply (replace_all_words_split _ D).
  - intros x N' Hx. rewrite dict_of_lookup, lookup_empty in Hx by done.
    destruct (list_to_map (names m) !! x) as [N''|] eqn:E; [|done].
    apply elem_of_list_to_map_2 in E. apply list_elem_of_fmap. by exists (x, N'').
  - rewrite dict_of_lookup by done. by rewrite (elem_of_list_to_map_1 _ X N).
  - apply (overlap_free_no_adjacent _ ha). by rewrite Hm.
Qed.

(** ** An occurrence outside every block *)

Lemma last_backtick (p : text) :
  Nat.Odd (backticks p) →
  ∃ pre p2, p = pre ++ backtick :: p2 ∧ (backtick ∉ p2) ∧ Nat.Even (backticks pre).
Proof.
  induction p as [|c p IH] using rev_ind.
  - intros [k Hk]. unfold backticks in Hk. simpl in Hk. lia.
  - rewrite backticks_app. destruct (decide (c = backtick)) as [->|Hc].
    + rewrite backticks_cons_backtick. intros [k Hk].
      unfold backticks at 2 in Hk. simpl in Hk.
      exists p, []. split_and!; [done|apply not_elem_of_nil|]. exists k. lia.
    + rewrite (backticks_plain [c]), Nat.add_0_r
        by (by intros ?%list_elem_of_singleton).
      intros (pre & p2 & -> & Hp2 & Hev)%IH.
      exists pre, (p2 ++ [c]). split_and!; [by rewrite <- app_assoc| |done].
      rewrite not_elem_of_app. split; [done|]. by intros ?%list_elem_of_singleton.
Qed.

Lemma update_sql_outside (m : list (text * text)) (t p q : text) :
  backtick ∉ t →
  Nat.Even (backticks p) ∨ backtick ∉ q →
  (UpdateSql.update_sql_in_content_with m (p ++ t ++ q)).1
  = (UpdateSql.update_sql_in_content_with m p).1 ++ t
      ++ (UpdateSql.update_sql_in_content_with m q).1.
Proof.
  intros Ht Hout.
  destruct (Nat.Even_or_Odd (backticks p)) as [Hev|Hodd].
  - rewrite update_sql_even_app by done. cbn [fst].
    by rewrite update_sql_plain_app.
  - destruct Hout as [Hev|Hq].
    { exfalso. by apply (Nat.Even_Odd_False (backticks p)). }
    apply last_backtick in Hodd as (pre & p2 & -> & Hp2 & Hev).
    rewrite <- !app_assoc. cbn [app].
    rewrite !(update_sql_even_app m pre) by done. cbn [fst].
    pose proof (update_sql_unpaired m [] (p2 ++ t ++ q) (not_elem_of_nil _)) as H1.
    pose proof (update_sql_unpaired m [] p2 (not_elem_of_nil _) Hp2) as H2.
    simpl in H1, H2. rewrite H1, H2, (update_sql_plain m q) by
      (rewrite ?not_elem_of_app; done).
    cbn [fst]. by rewrite <- !app_assoc.
Qed.

Lemma update_sql_inside (m : list (text * text)) (old new pre a b rest : text) :
  wf_table m → NoDup (names m).*1 → (old, new) ∈ m → backtick ∉ old →
  Nat.Even (backticks pre) → backtick ∉ a → backtick ∉ b →
  overlap_free m (a ++ old ++ b) →
  (UpdateSql.update_sql_in_content_with m
     (pre ++ backtick :: (a ++ old ++ b) ++ backtick :: rest)).1
  = (UpdateSql.update_sql_in_content_with m pre).1
      ++ backtick :: ((apply_mappings m (a, 0)).1 ++ new ++ (apply_mappings m (b, 0)).1)
      ++ backtick :: (UpdateSql.update_sql_in_content_with m rest).1.
Proof.
  intros Hwf Hnd Hin Hold Hev Ha Hb Hfree.
  rewrite update_sql_even_app by done. cbn [fst].
  pose proof (update_sql_block m [] (a ++ old ++ b) rest (not_elem_of_nil _)) as Hblock.
  cbn [app] in Hblock. rewrite Hblock by (rewrite !not_elem_of_app; done).
  cbn [fst]. by rewrite (apply_mappings_around m old new a b).
Qed.

Lemma REPLACEMENTS_no_backtick :
  Forall (λ e : text * text, backtick ∉ e.1) UpdateSql.REPLACEMENTS.
Proof. apply (bool_decide_unpack _). by vm_compute. Qed.

(** C1, as the code has it.  An old token outside every block (an even
    number of backticks before it, or no backtick behind it) stands in the
    output as it stood in the input, between the outputs of the text before
    it and of the text behind it.  An old token inside a block, in which no
    two occurrences of old tokens overlap, is replaced by its new token,
    between the passes over the rest of the block. *)
Theorem C1_outside_kept_inside_replaced (old new : text) :
  (old, new) ∈ UpdateSql.REPLACEMENTS →
  (∀ p q,
     Nat.Even (backticks p) ∨ backtick ∉ q →
     (UpdateSql.update_sql_in_content (p ++ old ++ q)).1
     = (UpdateSql.update_sql_in_content p).1 ++ old
         ++ (UpdateSql.update_sql_in_content q).1)
  ∧ (∀ pre a b rest,
       Nat.Even (backticks pre) → backtick ∉ a → backtick ∉ b →
       overlap_free UpdateSql.REPLACEMENTS (a ++ old ++ b) →
       (UpdateSql.update_sql_in_content
          (pre ++ backtick :: (a ++ old ++ b) ++ backtick :: rest)).1
       = (UpdateSql.update_sql_in_content pre).1
           ++ backtick :: ((apply_mappings UpdateSql.REPLACEMENTS (a, 0)).1 ++ new
                             ++ (apply_mappings UpdateSql.REPLACEMENTS (b, 0)).1)
           ++ backtick :: (UpdateSql.update_sql_in_content rest).1).
Proof.
  intros Hin.
  pose proof (proj1 (Forall_forall _ _) REPLACEMENTS_no_backtick _ Hin) as Hold.
  cbn [fst] in Hold. split.
  - intros p q Hout. by apply update_sql_outside.
  - intros pre a b rest Hev Ha Hb Hfree.
    apply update_sql_inside; try done.
    + apply REPLACEMENTS_wf.
    + apply REPLACEMENTS_names_NoDup.
Qed.

(** C1 as stated fails where old tokens overlap.  Take the block made of
    a double quote, userId, a double quote, teamId and a double quote: the
    token of userId stands at its start.  The pass replaces the token of
    teamId first, which takes the double quote in the middle away, and the
    block comes out without [user_id]. *)
Lemma C1_overlap_counterexample :
  let content := backtick :: quoted "userId" ++ txt "teamId" ++ [dquote; backtick] in
  (quoted "userId", txt "user_id") ∈ UpdateSql.REPLACEMENTS
  ∧ content = [backtick] ++ quoted "userId" ++ txt "teamId" ++ [dquote; backtick]
  ∧ UpdateSql.extract_sql_queries content
    = [(0, 17, quoted "userId" ++ txt "teamId" ++ [dquote])]
  ∧ UpdateSql.update_sql_in_content content
    = (backtick :: dquote :: txt "userIdteam_id" ++ [backtick], 1)
  ∧ ¬ occurs (txt "user_id") (UpdateSql.update_sql_in_content content).1.
Proof.
  intros content. split_and!; try by vm_compute.
  - apply (bool_decide_unpack _). by vm_compute.
  - apply str_count_zero. by vm_compute.
Qed.

(** C1 for the token of teamId behind a block and in a block. *)
Lemma C1_outside_kept_inside_replaced_witness :
  (UpdateSql.update_sql_in_content
     (txt "a`b`c" ++ quoted "teamId" ++ txt "d")).1
  = (UpdateSql.update_sql_in_content (txt "a`b`c")).1 ++ quoted "teamId"
      ++ (UpdateSql.update_sql_in_content (txt "d")).1
  ∧ (UpdateSql.update_sql_in_content
       (txt "x" ++ backtick :: (quoted "userId" ++ quoted "teamId" ++ txt ", ")
          ++ backtick :: txt "y")).1
    = (UpdateSql.update_sql_in_content (txt "x")).1
        ++ backtick :: ((apply_mappings UpdateSql.REPLACEMENTS (quoted "userId", 0)).1
                          ++ txt "team_id"
                          ++ (apply_mappings UpdateSql.REPLACEMENTS (txt ", ", 0)).1)
        ++ backtick :: (UpdateSql.update_sql_in_content (txt "y")).1.
Proof.
  destruct (C1_outside_kept_inside_replaced (quoted "teamId") (txt "team_id"))
    as [Hout Hin].
  { apply (bool_decide_unpack _). by vm_compute. }
  split.
  - apply Hout. left. exists 1. by vm_compute.
  - apply Hin.
    + exists 0. by vm_compute.
    + apply (bool_decide_unpack _). by vm_compute.
    + apply (bool_decide_unpack _). by vm_compute.
    + apply overlap_check_sound. apply (bool_decide_unpack _). by vm_compute.
Defined.

(** ** Reading in text mode *)

Lemma universal_newlines_no_CR (s : text) : CR ∉ universal_newlines s.
Proof.
  remember (length s) as k eqn:Hk. revert s Hk.
  induction k as [k IH] using lt_wf_ind. intros [|c s] ->; [apply not_elem_of_nil|].
  cbn [universal_newlines]. destruct (Ascii.eqb_spec c CR) as [->|Hc].
  - apply not_elem_of_cons. split; [done|].
    destruct s as [|c' s]; [apply not_elem_of_nil|].
    destruct (Ascii.eqb c' LF).
    + apply (IH (length s)); [simpl; lia|done].
    + apply (IH (length (c' :: s))); [simpl; lia|done].
  - apply not_elem_of_cons. split; [done|].
    apply (IH (length s)); [simpl; lia|done].
Qed.

(** A text without CR is read as it is. *)
Lemma universal_newlines_plain (s : text) : CR ∉ s → universal_newlines s = s.
Proof.
  induction s as [|c s IH]; [done|]. intros [Hc Hs]%not_elem_of_cons.
  cbn [universal_newlines]. destruct (Ascii.eqb_spec c CR) as [->|_]; [done|].
  by rewrite IH.
Qed.

Lemma universal_newlines_idemp (s : text) :
  universal_newlines (universal_newlines s) = universal_newlines s.
Proof. apply universal_newlines_plain, universal_newlines_no_CR. Qed.

(** ** Reading, backing up and writing one file *)

Lemma string_length_app (a b : string) :
  String.length (a +:+ b) = String.length a + String.length b.
Proof. induction a as [|c a IH]; simpl; [done|]. by rewrite IH. Qed.

Lemma bak_neq (filepath : string) : bak filepath ≠ filepath.
Proof.
  intros Heq. apply (f_equal String.length) in Heq.
  unfold bak in Heq. rewrite string_length_app in Heq. simpl in Heq. lia.
Qed.

Lemma bak_inj (f g : string) : bak f = bak g → f = g.
Proof.
  unfold bak. revert g. induction f as [|c f IH]; intros [|d g] Heq; simpl in *.
  - done.
  - injection Heq as -> Heq. destruct g as [|? [|? [|? [|? ?]]]]; simplify_eq/=.
  - injection Heq as -> Heq. destruct f as [|? [|? [|? [|? ?]]]]; simplify_eq/=.
  - injection Heq as -> Heq. f_equal. by apply IH.
Qed.

Lemma record_logged e w : record e w = logged w [e].
Proof. done. Qed.

(** [update_file], step by step: what it returns and the world it leaves,
    by what it meets. *)
Lemma update_file_outcome m f w :
  FixHandlers.update_file_with m f w
  = match files w !! f with
    | None => (Raise FileNotFoundError, logged w [Printed (Processing f)])
    | Some c =>
        match read_fault w f with
        | Some msg => (Raise (OtherException msg), logged w [Printed (Processing f)])
        | None =>
            let original := universal_newlines c in
            let r := apply_mappings m (original, 0) in
            let w0 := logged w [Printed (Processing f); Read f] in
            match write_fault w (bak f) with
            | Some OpenNotFound => (Raise FileNotFoundError, w0)
            | Some (OpenFails msg) => (Raise (OtherException msg), w0)
            | Some (WriteFails k msg) =>
                (Raise (OtherException msg),
                 store (bak f) (take k original)
                   (WriteFailed (bak f) (take k original)) w0)
            | None =>
                let w1 := logged (store (bak f) original (Wrote (bak f) original) w0)
                            (report m (original, 0)) in
                match write_fault w f with
                | Some OpenNotFound => (Raise FileNotFoundError, w1)
                | Some (OpenFails msg) => (Raise (OtherException msg), w1)
                | Some (WriteFails k msg) =>
                    (Raise (OtherException msg),
                     store f (take k r.1) (WriteFailed f (take k r.1)) w1)
                | None =>
                    (Ok r.2,
                     logged (store f r.1 (Wrote f r.1) w1) [Printed (Updated f r.2)])
                end
            end
        end
    end.
Proof.
  destruct (files w !! f) as [c|] eqn:Hf;
    [destruct (read_fault w f) as [msg|] eqn:Hr;
     [|destruct (write_fault w (bak f)) as [[|msg|k msg]|] eqn:Hb;
       [| | |destruct (write_fault w f) as [[|msg|k msg]|] eqn:Hw]]|];
    unfold FixHandlers.update_file_with, mbind, io_bind, bind, print, read_file,
      write_file;
    simpl; rewrite ?Hf, ?Hr; simpl; rewrite ?Hb, ?replace_loop_spec; simpl;
    rewrite ?Hw; unfold ret, logged, store, record; simpl;
    by rewrite <- ?app_assoc.
Qed.

(** The same for [process_file], which handles the missing file itself. *)
Lemma process_file_outcome f w :
  UpdateSql.process_file f w
  = match files w !! f with
    | None => (Ok 0, logged w [Printed (Processing f); Printed WarningSkipping])
    | Some c =>
        match read_fault w f with
        | Some msg => (Raise (OtherException msg), logged w [Printed (Processing f)])
        | None =>
            let original := universal_newlines c in
            let r := UpdateSql.update_sql_in_content original in
            let w0 := logged w [Printed (Processing f); Read f] in
            match write_fault w (bak f) with
            | Some OpenNotFound => (Raise FileNotFoundError, w0)
            | Some (OpenFails msg) => (Raise (OtherException msg), w0)
            | Some (WriteFails k msg) =>
                (Raise (OtherException msg),
                 store (bak f) (take k original)
                   (WriteFailed (bak f) (take k original)) w0)
            | None =>
                let w1 := store (bak f) original (Wrote (bak f) original) w0 in
                match write_fault w f with
                | Some OpenNotFound => (Raise FileNotFoundError, w1)
                | Some (OpenFails msg) => (Raise (OtherException msg), w1)
                | Some (WriteFails k msg) =>
                    (Raise (OtherException msg),
                     store f (take k r.1) (WriteFailed f (take k r.1)) w1)
                | None =>
                    (Ok r.2, logged (store f r.1 (Wrote f r.1) w1) [Printed (Made r.2)])
                end
            end
        end
    end.
Proof.
  destruct (files w !! f) as [c|] eqn:Hf;
    [destruct (read_fault w f) as [msg|] eqn:Hr;
     [|destruct (write_fault w (bak f)) as [[|msg|k msg]|] eqn:Hb;
       [| | |destruct (write_fault w f) as [[|msg|k msg]|] eqn:Hw]]|];
    unfold UpdateSql.process_file, mbind, io_bind, bind, try_except, print,
      read_file, write_file;
    simpl; rewrite ?Hf, ?Hr; simpl; rewrite ?Hb; simpl;
    try (destruct (UpdateSql.update_sql_in_content (universal_newlines c))
           as [updated count]);
    simpl; rewrite ?Hw; unfold ret, logged, store, record; simpl;
    by rewrite <- ?app_assoc.
Qed.

Lemma update_file_missing f w m :
  files w !! f = None →
  FixHandlers.update_file_with m f w
  = (Raise FileNotFoundError, logged w [Printed (Processing f)]).
Proof. intros Hf. by rewrite update_file_outcome, Hf. Qed.

Lemma process_file_missing f w :
  files w !! f = None →
  UpdateSql.process_file f w
  = (Ok 0, logged w [Printed (Processing f); Printed WarningSkipping]).
Proof. intros Hf. by rewrite process_file_outcome, Hf. Qed.

Lemma Ok_inj {A} (a b : A) : Ok a = Ok b → a = b.
Proof. by intros [= ->]. Qed.

Lemma Raise_inj {A} (e1 e2 : exn) : @Raise A e1 = Raise e2 → e1 = e2.
Proof. by intros [= ->]. Qed.

(** Take the outcome of processing a file apart: one goal for each way it
    can go, with what was met as hypotheses. *)
Ltac outcome_cases :=
  repeat (cbv beta iota zeta;
    match goal with
    | |- context [match files ?w !! ?f with _ => _ end] =>
        first [ match goal with Hx : files w !! f = _ |- _ => rewrite Hx end
              | let Hf := fresh "Hf" in destruct (files w !! f) as [?|] eqn:Hf ]
    | |- context [match read_fault ?w ?f with _ => _ end] =>
        first [ match goal with Hx : read_fault w f = _ |- _ => rewrite Hx end
              | let Hr := fresh "Hr" in destruct (read_fault w f) as [?|] eqn:Hr ]
    | |- context [match write_fault ?w ?f with _ => _ end] =>
        first [ match goal with Hx : write_fault w f = _ |- _ => rewrite Hx end
              | let Hw := fresh "Hw" in
                destruct (write_fault w f) as [[| ? | ? ?]|] eqn:Hw ]
    end);
  cbv beta iota zeta.

Ltac outcome H :=
  unfold FixHandlers.update_file in H;
  first [ rewrite update_file_outcome in H | rewrite process_file_outcome in H ];
  revert H; outcome_cases;
  let H1 := fresh "H" in
  let H2 := fresh "H" in
  intros H; apply pair_equal_spec in H as [H1 H2];
  first [ apply Ok_inj in H1 | apply Raise_inj in H1
        | match type of H1 with _ = ?r => is_var r end
        | discriminate H1 ];
  try subst.

(** ** The loops over the file list *)

Lemma fix_main_loop_app l1 l2 total w :
  FixHandlers.main_loop (l1 ++ l2) total w
  = match FixHandlers.main_loop l1 total w with
    | (Ok t, w') => FixHandlers.main_loop l2 t w'
    | (Raise e, w') => (Raise e, w')
    end.
Proof.
  revert total w. induction l1 as [|f l1 IH]; intros total w; [done|].
  cbn [app FixHandlers.main_loop]. unfold mbind, io_bind.
  set (c := FixHandlers.try_update _ _). unfold bind.
  destruct (c w) as [[t|e] w']; [apply IH|done].
Qed.

Lemma sql_main_loop_app l1 l2 total w :
  UpdateSql.main_loop (l1 ++ l2) total w
  = match UpdateSql.main_loop l1 total w with
    | (Ok t, w') => UpdateSql.main_loop l2 t w'
    | (Raise e, w') => (Raise e, w')
    end.
Proof.
  revert total w. induction l1 as [|f l1 IH]; intros total w; [done|].
  cbn [app UpdateSql.main_loop]. unfold mbind, io_bind, bind.
  destruct (UpdateSql.process_file f w) as [[t|e] w']; [apply IH|done].
Qed.

Lemma report_printed m acc e : e ∈ report m acc → ∃ l, e = Printed l.
Proof.
  revert acc. induction m as [|[old new] m IH]; intros acc; cbn [report].
  - by intros ?%elem_of_nil.
  - intros [Hin|Hin]%elem_of_app; [|by eapply IH].
    destruct (0 <? str_count acc.1 old).
    + apply list_elem_of_singleton in Hin. eauto.
    + by apply elem_of_nil in Hin.
Qed.

(** One turn of the loop of the first script, by what [update_file]
    does. *)
Lemma try_update_outcome f t w :
  FixHandlers.try_update f t w
  = match FixHandlers.update_file f w with
    | (Ok count, w') => (Ok (t + count), w')
    | (Raise FileNotFoundError, w') =>
        (Ok t, logged w' [Printed (WarningNotFound f)])
    | (Raise (OtherException msg), w') =>
        (Raise (SystemExit 1),
         logged w' [Printed (ErrorProcessing f (OtherException msg))])
    | (Raise (SystemExit code), w') => (Raise (SystemExit code), w')
    end.
Proof.
  unfold FixHandlers.try_update, try_except, mbind, io_bind, bind.
  destruct (FixHandlers.update_file f w) as [[count|[|msg|code]] w']; done.
Qed.

(** C6: a listed file that does not exist is reported as skipped, adds
    nothing to the total and changes no file, and the loop goes on with the
    remaining files, in both scripts. *)
Theorem C6_missing_file_skipped (filepath : string) (todo : list string)
    (total : nat) (w : world) :
  files w !! filepath = None →
  FixHandlers.main_loop (filepath :: todo) total w
  = FixHandlers.main_loop todo total
      (logged w [Printed (Processing filepath); Printed (WarningNotFound filepath)])
  ∧ UpdateSql.main_loop (filepath :: todo) total w
    = UpdateSql.main_loop todo total
        (logged w [Printed (Processing filepath); Printed WarningSkipping]).
Proof.
  intros Hf. split.
  - cbn [FixHandlers.main_loop]. unfold mbind, io_bind, bind at 1.
    rewrite try_update_outcome. unfold FixHandlers.update_file.
    rewrite update_file_missing by done. by rewrite logged_logged.
  - cbn [UpdateSql.main_loop]. unfold mbind, io_bind, bind at 1.
    rewrite process_file_missing by done. by rewrite Nat.add_0_r.
Qed.

(** C6 in a world without any file. *)
Lemma C6_missing_file_skipped_witness :
  let w := World ∅ (λ _, None) (λ _, None) [] in
  FixHandlers.main_loop handler_files 0 w
  = FixHandlers.main_loop (drop 1 handler_files) 0
      (logged w [Printed (Processing "internal/handlers/handlers.go");
                 Printed (WarningNotFound "internal/handlers/handlers.go")])
  ∧ UpdateSql.main_loop handler_files 0 w
    = UpdateSql.main_loop (drop 1 handler_files) 0
        (logged w [Printed (Processing "internal/handlers/handlers.go");
                   Printed WarningSkipping]).
Proof.
  intros w.
  apply (C6_missing_file_skipped "internal/handlers/handlers.go"
           (drop 1 handler_files) 0 w).
  reflexivity.
Defined.

(** ** The backup *)

Lemma no_target_write (filepath : string) (l : list event) :
  (∀ e, e ∈ l → e = Read filepath ∨ (∃ x, e = Wrote (bak filepath) x)
                ∨ (∃ x, e = WriteFailed (bak filepath) x)
                ∨ ∃ ln, e = Printed ln) →
  ∀ x, (Wrote filepath x ∉ l) ∧ (WriteFailed filepath x ∉ l).
Proof.
  intros Hl x. pose proof (bak_neq filepath).
  split; intros Hin; destruct (Hl _ Hin) as [?|[[? ?]|[[? ?]|[? ?]]]]; simplify_eq.
Qed.

(** The events of a list are among those that leave the target alone. *)
Ltac harmless :=
  let e := fresh "e" in
  let Hin := fresh "Hin" in
  intros e Hin;
  repeat match type of Hin with
  | _ ∈ _ ++ _ => apply elem_of_app in Hin as [Hin|Hin]
  | _ ∈ _ :: _ => apply elem_of_cons in Hin as [->|Hin]
  | _ ∈ [] => by apply elem_of_nil in Hin
  | _ ∈ report _ _ => apply report_printed in Hin
  end; eauto 7.

Lemma update_file_backup m (filepath : string) (content : text) (w : world) r w' :
  files w !! filepath = Some content →
  FixHandlers.update_file_with m filepath w = (r, w') →
  let original := universal_newlines content in
  let updated := (apply_mappings m (original, 0)).1 in
  match r with
  | Ok n =>
      files w' !! bak filepath = Some original
      ∧ files w' !! filepath = Some updated
      ∧ log w' = log w ++ [Printed (Processing filepath); Read filepath;
                           Wrote (bak filepath) original]
                       ++ report m (original, 0)
                       ++ [Wrote filepath updated; Printed (Updated filepath n)]
  | Raise e =>
      (files w' !! filepath = Some content
       ∧ ∃ l, log w' = log w ++ l
              ∧ ∀ x, (Wrote filepath x ∉ l) ∧ (WriteFailed filepath x ∉ l))
      ∨ (∃ k, files w' !! bak filepath = Some original
              ∧ files w' !! filepath = Some (take k updated)
              ∧ log w' = log w ++ [Printed (Processing filepath); Read filepath;
                                   Wrote (bak filepath) original]
                               ++ report m (original, 0)
                               ++ [WriteFailed filepath (take k updated)])
  end.
Proof.
  intros Hf Hrun. pose proof (bak_neq filepath) as Hne. outcome Hrun;
    cbn [files log logged store].
  - left. split; [done|]. eexists. split; [done|]. apply no_target_write. harmless.
  - left. split; [done|]. eexists. split; [done|]. apply no_target_write. harmless.
  - left. split; [done|]. eexists. split; [done|]. apply no_target_write. harmless.
  - left. split; [by rewrite lookup_insert_ne|]. eexists.
    split; [by rewrite <- app_assoc|]. apply no_target_write. harmless.
  - left. split; [by rewrite lookup_insert_ne|]. eexists.
    split; [by rewrite <- !app_assoc|]. apply no_target_write. harmless.
  - left. split; [by rewrite lookup_insert_ne|]. eexists.
    split; [by rewrite <- !app_assoc|]. apply no_target_write. harmless.
  - right. eexists. split_and!.
    + by rewrite lookup_insert_ne, lookup_insert_eq.
    + by rewrite lookup_insert_eq.
    + by rewrite <- !app_assoc.
  - split_and!.
    + by rewrite lookup_insert_ne, lookup_insert_eq.
    + by rewrite lookup_insert_eq.
    + by rewrite <- !app_assoc.
Qed.

Lemma process_file_backup (filepath : string) (content : text) (w : world) r w' :
  files w !! filepath = Some content →
  UpdateSql.process_file filepath w = (r, w') →
  let original := universal_newlines content in
  let updated := (UpdateSql.update_sql_in_content original).1 in
  match r with
  | Ok n =>
      files w' !! bak filepath = Some original
      ∧ files w' !! filepath = Some updated
      ∧ log w' = log w ++ [Printed (Processing filepath); Read filepath;
                           Wrote (bak filepath) original;
                           Wrote filepath updated; Printed (Made n)]
  | Raise e =>
      (files w' !! filepath = Some content
       ∧ ∃ l, log w' = log w ++ l
              ∧ ∀ x, (Wrote filepath x ∉ l) ∧ (WriteFailed filepath x ∉ l))
      ∨ (∃ k, files w' !! bak filepath = Some original
              ∧ files w' !! filepath = Some (take k updated)
              ∧ log w' = log w ++ [Printed (Processing filepath); Read filepath;
                                   Wrote (bak filepath) original;
                                   WriteFailed filepath (take k updated)])
  end.
Proof.
  intros Hf Hrun. pose proof (bak_neq filepath) as Hne. outcome Hrun;
    cbn [files log logged store].
  - left. split; [done|]. eexists. split; [done|]. apply no_target_write. harmless.
  - left. split; [done|]. eexists. split; [done|]. apply no_target_write. harmless.
  - left. split; [done|]. eexists. split; [done|]. apply no_target_write. harmless.
  - left. split; [by rewrite lookup_insert_ne|]. eexists.
    split; [by rewrite <- app_assoc|]. apply no_target_write. harmless.
  - left. split; [by rewrite lookup_insert_ne|]. eexists.
    split; [by rewrite <- !app_assoc|]. apply no_target_write. harmless.
  - left. split; [by rewrite lookup_insert_ne|]. eexists.
    split; [by rewrite <- !app_assoc|]. apply no_target_write. harmless.
  - right. eexists. split_and!.
    + by rewrite lookup_insert_ne, lookup_insert_eq.
    + by rewrite lookup_insert_eq.
    + by rewrite <- !app_assoc.
  - split_and!.
    + by rewrite lookup_insert_ne, lookup_insert_eq.
    + by rewrite lookup_insert_eq.
    + by rewrite <- !app_assoc.
Qed.

(** ** A whole run *)

Section Runs.
Variables (body : string → nat → io nat) (pass : text → text).
Hypothesis body_spec : ∀ f t w, turn_spec pass f w (body f t w).

Lemma for_each_cons f l t w :
  for_each body (f :: l) t w
  = match body f t w with
    | (Ok t', w') => for_each body l t' w'
    | (Raise e, w') => (Raise e, w')
    end.
Proof. done. Qed.

Lemma for_each_faults l t w :
  read_fault (for_each body l t w).2 = read_fault w
  ∧ write_fault (for_each body l t w).2 = write_fault w.
Proof.
  revert t w. induction l as [|f l IH]; intros t w; [done|].
  rewrite for_each_cons. destruct (body_spec f t w) as (Hr & Hw & _).
  destruct (body f t w) as [[t'|e] w']; cbn [fst snd] in *; [|done].
  destruct (IH t' w') as [-> ->]. done.
Qed.

(** The loop leaves every file alone that is not listed and is not the
    backup of a listed file. *)
Lemma for_each_frame l t w q :
  q ∉ l → (∀ f, f ∈ l → q ≠ bak f) →
  files (for_each body l t w).2 !! q = files w !! q.
Proof.
  revert t w. induction l as [|f l IH]; intros t w Hq Hb; [done|].
  apply not_elem_of_cons in Hq as [Hqf Hq].
  rewrite for_each_cons. destruct (body_spec f t w) as (_ & _ & Hframe & _).
  specialize (Hframe q Hqf (Hb f ltac:(by left))).
  destruct (body f t w) as [[t'|e] w']; cbn [fst snd] in *; [|done].
  rewrite IH; [done..|]. intros g Hg. apply Hb. by right.
Qed.

Lemma separate_cons f l : separate (f :: l) → separate l.
Proof.
  intros [Hnd Hb]. apply NoDup_cons in Hnd as [_ Hnd]. split; [done|].
  intros g h Hg Hh. apply Hb; by right.
Qed.

(** The files of a separate list do not disturb each other: the turn for
    one leaves the others and their backups alone. *)
Lemma separate_head f l :
  separate (f :: l) →
  (f ∉ l) ∧ (∀ g, g ∈ l → f ≠ bak g) ∧ (bak f ∉ l) ∧ (∀ g, g ∈ l → bak f ≠ bak g)
  ∧ (∀ g, g ∈ l → g ≠ f ∧ g ≠ bak f).
Proof.
  intros [Hnd Hb]. apply NoDup_cons in Hnd as [Hf Hnd]. split_and!.
  - done.
  - intros g Hg. apply Hb; [by right|by left].
  - intros Hin. by apply (Hb f (bak f)); [left|right|].
  - intros g Hg Heq. apply bak_inj in Heq as ->. done.
  - intros g Hg. split; [by intros ->|]. apply Hb; [by left|by right].
Qed.

(** After the loop every listed file is as before, or its backup holds
    what was read from it before the loop and the file holds the
    transformed text or a first part of it. *)
Lemma for_each_backups l t w f c :
  separate l → f ∈ l → files w !! f = Some c →
  files (for_each body l t w).2 !! f = Some c
  ∨ (files (for_each body l t w).2 !! bak f = Some (universal_newlines c)
     ∧ ∃ k, files (for_each body l t w).2 !! f
            = Some (take k (pass (universal_newlines c)))).
Proof.
  revert t w. induction l as [|g l IH]; intros t w Hsep Hin Hf;
    [by apply elem_of_nil in Hin|].
  pose proof (separate_head g l Hsep) as (Hg1 & Hg2 & Hg3 & Hg4 & Hg5).
  rewrite for_each_cons.
  destruct (body_spec g t w) as (_ & _ & Hframe & _ & Hfile & _).
  apply elem_of_cons in Hin as [->|Hin].
  - specialize (Hfile c Hf).
    destruct (body g t w) as [[t'|e] w']; cbn [fst snd] in *; [|done].
    rewrite !for_each_frame by done. done.
  - destruct (Hg5 f Hin) as [Hne1 Hne2]. specialize (Hframe f Hne1 Hne2).
    destruct (body g t w) as [[t'|e] w']; cbn [fst snd] in *.
    + apply IH; [by eapply separate_cons|done|]. by rewrite Hframe.
    + left. by rewrite Hframe.
Qed.

(** When no listed file that exists meets a failure, the loop comes to
    its end: every listed file that exists is transformed and its backup
    holds what was read from it before the loop, and a listed file that
    is missing is still missing. *)
Lemma for_each_done l t w :
  separate l →
  (∀ f, f ∈ l → read_fault w f = None
                ∧ write_fault w (bak f) = None ∧ write_fault w f = None) →
  (∃ t', (for_each body l t w).1 = Ok t')
  ∧ (∀ f c, f ∈ l → files w !! f = Some c →
            files (for_each body l t w).2 !! bak f = Some (universal_newlines c)
            ∧ files (for_each body l t w).2 !! f
              = Some (pass (universal_newlines c)))
  ∧ (∀ f, f ∈ l → files w !! f = None →
          files (for_each body l t w).2 !! f = None).
Proof.
  revert t w. induction l as [|g l IH]; intros t w Hsep Hok.
  - split_and!; [by exists t|by intros f c ?%elem_of_nil|by intros f ?%elem_of_nil].
  - pose proof (separate_head g l Hsep) as (Hg1 & Hg2 & Hg3 & Hg4 & Hg5).
    rewrite for_each_cons.
    destruct (body_spec g t w) as (Hfr & Hfw & Hframe & Hmiss & _ & Hdone).
    destruct (Hok g ltac:(by left)) as (Hr & Hb & Hw).
    assert (∃ t', (body g t w).1 = Ok t') as [t' Ht'].
    { destruct (files w !! g) as [cg|] eqn:Hcg.
      - by destruct (Hdone cg eq_refl Hr Hb Hw) as [? _].
      - by destruct (Hmiss eq_refl) as [? _]. }
    destruct (body g t w) as [r w'] eqn:E. cbn [fst snd] in *. subst r.
    destruct (IH t' w' (separate_cons _ _ Hsep)) as (Hend & Hall & Hnone).
    { intros f Hf. destruct (Hg5 f Hf) as [Hne1 Hne2].
      destruct (Hok f ltac:(by right)) as (? & ? & ?).
      rewrite Hfr, Hfw. done. }
    split_and!; [done| |].
    + intros f c [->|Hf]%elem_of_cons Hc.
      * rewrite !for_each_frame by done.
        by destruct (Hdone c Hc Hr Hb Hw) as (_ & ? & ?).
      * destruct (Hg5 f Hf) as [Hne1 Hne2]. apply Hall; [done|].
        by rewrite Hframe.
    + intros f [->|Hf]%elem_of_cons Hc.
      * rewrite for_each_frame by done. destruct (Hmiss Hc) as [_ ->]. done.
      * destruct (Hg5 f Hf) as [Hne1 Hne2]. apply Hnone; [done|].
        by rewrite Hframe.
Qed.

End Runs.

(** The loops of the two scripts are such loops. *)
Lemma fix_main_loop_for_each l t w :
  FixHandlers.main_loop l t w = for_each FixHandlers.try_update l t w.
Proof.
  revert t w. induction l as [|f l IH]; intros t w; [done|].
  cbn [FixHandlers.main_loop for_each]. unfold mbind, io_bind, bind.
  destruct (FixHandlers.try_update f t w) as [[t'|e] w']; [apply IH|done].
Qed.

Lemma sql_main_loop_for_each l t w :
  UpdateSql.main_loop l t w = for_each add_count l t w.
Proof.
  revert t w. induction l as [|f l IH]; intros t w; [done|].
  cbn [UpdateSql.main_loop for_each]. unfold add_count, mbind, io_bind, bind.
  destruct (UpdateSql.process_file f w) as [[t'|e] w']; [apply IH|done].
Qed.

(** One turn of each loop. *)
Ltac turn_case :=
  cbn [fst snd files read_fault write_fault log logged store];
  split_and!; try done; intros; simplify_eq;
  rewrite ?lookup_insert_eq; rewrite ?lookup_insert_ne by done;
  rewrite ?lookup_insert_eq;
  try done; try (by left); try (by eexists);
  try (right; split; [done|by eexists]);
  try (right; split; [done|]; eexists (length _); by rewrite firstn_all);
  try (split_and!; first [done | by eexists]).

Lemma try_update_with_spec m f t w :
  turn_spec (λ c, (apply_mappings m (c, 0)).1) f w
    (match FixHandlers.update_file_with m f w with
     | (Ok count, w') => (Ok (t + count), w')
     | (Raise FileNotFoundError, w') =>
         (Ok t, logged w' [Printed (WarningNotFound f)])
     | (Raise (OtherException msg), w') =>
         (Raise (SystemExit 1),
          logged w' [Printed (ErrorProcessing f (OtherException msg))])
     | (Raise (SystemExit code), w') => (Raise (SystemExit code), w')
     end).
Proof.
  pose proof (bak_neq f) as Hne. assert (f ≠ bak f) as Hne' by done.
  unfold turn_spec. rewrite update_file_outcome. outcome_cases; turn_case.
Qed.

Lemma try_update_spec f t w :
  turn_spec (λ c, (apply_mappings FixHandlers.COLUMN_MAPPINGS (c, 0)).1) f w
    (FixHandlers.try_update f t w).
Proof. rewrite try_update_outcome. apply try_update_with_spec. Qed.

Lemma add_count_spec f t w :
  turn_spec (λ c, (UpdateSql.update_sql_in_content c).1) f w (add_count f t w).
Proof.
  pose proof (bak_neq f) as Hne. assert (f ≠ bak f) as Hne' by done.
  unfold turn_spec, add_count, mbind, io_bind, bind, ret.
  rewrite process_file_outcome. outcome_cases; turn_case.
Qed.

(** The listed files are separate. *)
Lemma handler_files_separate : separate handler_files.
Proof.
  split.
  - apply (bool_decide_unpack _). by vm_compute.
  - intros f g Hf Hg.
    assert (Forall (λ f, Forall (λ g, g ≠ bak f) handler_files) handler_files) as H.
    { apply (bool_decide_unpack _). by vm_compute. }
    rewrite Forall_forall in H. specialize (H f Hf).
    rewrite Forall_forall in H. by apply H.
Qed.

(** What [main] adds to its loop is printed lines. *)
Lemma fix_run_script w :
  let out := for_each FixHandlers.try_update handler_files 0 w in
  files (run_script FixHandlers.main w).2 = files out.2
  ∧ read_fault (run_script FixHandlers.main w).2 = read_fault out.2
  ∧ write_fault (run_script FixHandlers.main w).2 = write_fault out.2
  ∧ (∀ t, out.1 = Ok t → (run_script FixHandlers.main w).1 = 0).
Proof.
  unfold run_script, FixHandlers.main, mbind, io_bind, bind.
  rewrite fix_main_loop_for_each.
  destruct (for_each FixHandlers.try_update handler_files 0 w) as [[t|e] w'].
  - done.
  - destruct e; cbn; split_and!; done.
Qed.

Lemma sql_run_script w :
  let out := for_each add_count handler_files 0 w in
  files (run_script UpdateSql.main w).2 = files out.2
  ∧ read_fault (run_script UpdateSql.main w).2 = read_fault out.2
  ∧ write_fault (run_script UpdateSql.main w).2 = write_fault out.2
  ∧ (∀ t, out.1 = Ok t → (run_script UpdateSql.main w).1 = 0).
Proof.
  unfold run_script, UpdateSql.main, mbind, io_bind, bind.
  rewrite sql_main_loop_for_each.
  destruct (for_each add_count handler_files 0 w) as [[t|e] w'].
  - done.
  - destruct e; cbn; split_and!; done.
Qed.




(** C5 fails in the first script for a failure that raises
    [FileNotFoundError] when a file is opened for writing: [main] takes
    it for a missing file.  With the first handler file in place and its
    backup path one that cannot be opened, the first script reports the
    file as not found, goes on to the next files and ends with status 0;
    the second script, whose handler is around the reading only, ends
    there with the traceback and status 1. *)
Theorem C5_write_not_found_is_skipped :
  let f1 := "internal/handlers/handlers.go"%string in
  let f2 := "internal/handlers/scheduled_posts_worker.go"%string in
  let f3 := "internal/handlers/realtime_ws.go"%string in
  let w := World {[ f1 := example_in; f2 := example_in ]} (λ _, None)
             (λ p, if decide (p = bak f1) then Some OpenNotFound else None) [] in
  (run_script FixHandlers.main w).1 = 0
  ∧ log (run_script FixHandlers.main w).2
    = [Printed (Processing f1); Read f1; Printed (WarningNotFound f1);
       Printed (Processing f2); Read f2; Wrote (bak f2) example_in;
       Printed (Replaced (quoted "teamId") (txt "team_id") 1);
       Printed (Replaced (quoted "userId") (txt "user_id") 1);
       Wrote f2 example_out; Printed (Updated f2 2);
       Printed (Processing f3); Printed (WarningNotFound f3);
       Printed (Complete 2); Printed BackupNote; Printed VerifyHint;
       Printed RestoreHint]
  ∧ files (run_script FixHandlers.main w).2 !! f1 = Some example_in
  ∧ files (run_script FixHandlers.main w).2 !! bak f1 = None
  ∧ run_script UpdateSql.main w
    = (1, logged w [Printed (Processing f1); Read f1; Traceback FileNotFoundError]).
Proof. split_and!; by vm_compute. Qed.

(** ** Characters the passes do not bring in *)

Lemma str_replace_notin (c : ascii) (s old new : text) :
  c ∉ new → c ∉ s → c ∉ str_replace s old new.
Proof.
  intros Hnew Hs. destruct old as [|a old]; [|by apply replace_from_notin].
  cbn [str_replace]. apply not_elem_of_app. split; [done|].
  induction s as [|x s IH]; [apply not_elem_of_nil|].
  apply not_elem_of_cons in Hs as [Hx Hs]. cbn [flat_map].
  apply not_elem_of_cons. split; [done|]. apply not_elem_of_app. split; [done|].
  by apply IH.
Qed.

Lemma apply_mappings_keeps_out (c : ascii) (m : list (text * text)) s n :
  Forall (λ e, c ∉ e.2) m → c ∉ s → c ∉ (apply_mappings m (s, n)).1.
Proof.
  intros Hm. revert s n. induction Hm as [|[old new] m He Hm IH]; intros s n Hs; [done|].
  cbn [apply_mappings fold_left]. unfold replace_step at 2.
  destruct (0 <? str_count s old).
  - apply IH. by apply str_replace_notin.
  - by apply IH.
Qed.

Lemma update_sql_keeps_out (c : ascii) (m : list (text * text)) s :
  Forall (λ e, c ∉ e.2) m → c ∉ s →
  c ∉ (UpdateSql.update_sql_in_content_with m s).1.
Proof.
  intros Hm.
  induction s as [p Hp|p tail Hp Htail|p body rest Hp Hbody IH] using block_ind;
    intros Hs.
  - by rewrite update_sql_plain.
  - by rewrite update_sql_unpaired.
  - rewrite update_sql_block by done. cbn [fst].
    rewrite !not_elem_of_app, !not_elem_of_cons, !not_elem_of_app, !not_elem_of_cons
      in Hs |- *.
    destruct Hs as (? & ? & ? & ? & ?). split_and!; try done.
    + by apply apply_mappings_keeps_out.
    + by apply IH.
Qed.

Lemma COLUMN_MAPPINGS_no_CR : Forall (λ e : text * text, CR ∉ e.2) FixHandlers.COLUMN_MAPPINGS.
Proof. apply (bool_decide_unpack _). by vm_compute. Qed.

Lemma REPLACEMENTS_no_CR : Forall (λ e : text * text, CR ∉ e.2) UpdateSql.REPLACEMENTS.
Proof. apply (bool_decide_unpack _). by vm_compute. Qed.

(** ** Running twice *)

Section TwoRuns.
Variables (body : string → nat → io nat) (pass : text → text).
Hypothesis body_spec : ∀ f t w, turn_spec pass f w (body f t w).
Hypothesis pass_idempotent : ∀ c, pass (pass c) = pass c.
Hypothesis pass_no_CR : ∀ c, CR ∉ c → CR ∉ pass c.

(** Two loops in a row over files that meet no failure: both come to
    their end; after the first the backups hold the texts read and the
    files are transformed; after the second the backups and the files hold
    the transformed texts. *)
Lemma for_each_twice l t t2 w (w1' : world) :
  separate l →
  (∀ f, f ∈ l → read_fault w f = None
                ∧ write_fault w (bak f) = None ∧ write_fault w f = None) →
  files w1' = files (for_each body l t w).2 →
  read_fault w1' = read_fault (for_each body l t w).2 →
  write_fault w1' = write_fault (for_each body l t w).2 →
  (∃ t', (for_each body l t w).1 = Ok t')
  ∧ (∃ t', (for_each body l t2 w1').1 = Ok t')
  ∧ ∀ f c, f ∈ l → files w !! f = Some c →
      files w1' !! bak f = Some (universal_newlines c)
      ∧ files w1' !! f = Some (pass (universal_newlines c))
      ∧ files (for_each body l t2 w1').2 !! bak f = Some (pass (universal_newlines c))
      ∧ files (for_each body l t2 w1').2 !! f = Some (pass (universal_newlines c)).
Proof.
  intros Hsep Hok Hfiles Hrf Hwf.
  destruct (for_each_done body pass body_spec l t w Hsep Hok) as (Hend1 & Hall1 & _).
  destruct (for_each_faults body pass body_spec l t w) as [Hr1 Hw1].
  assert (∀ f, f ∈ l → read_fault w1' f = None
                       ∧ write_fault w1' (bak f) = None ∧ write_fault w1' f = None)
    as Hok1.
  { intros f Hf. rewrite Hrf, Hwf, Hr1, Hw1. by apply Hok. }
  destruct (for_each_done body pass body_spec l t2 w1' Hsep Hok1)
    as (Hend2 & Hall2 & _).
  split_and!; [done..|]. intros f c Hf Hc.
  destruct (Hall1 f c Hf Hc) as [Hb1 Hf1]. rewrite <- Hfiles in Hb1, Hf1.
  destruct (Hall2 f _ Hf Hf1) as [Hb2 Hf2].
  rewrite (universal_newlines_plain (pass (universal_newlines c))) in Hb2, Hf2
    by apply pass_no_CR, universal_newlines_no_CR.
  rewrite pass_idempotent in Hf2. done.
Qed.

End TwoRuns.

(** The backup is written from what was read, whatever the pass will
    find and whatever happens to the file afterwards. *)
Lemma update_file_overwrites_backup m f c w :
  files w !! f = Some c → read_fault w f = None → write_fault w (bak f) = None →
  files (FixHandlers.update_file_with m f w).2 !! bak f = Some (universal_newlines c)
  ∧ ∃ l, log (FixHandlers.update_file_with m f w).2
         = log w ++ [Printed (Processing f); Read f;
                     Wrote (bak f) (universal_newlines c)] ++ l.
Proof.
  intros Hf Hr Hb. pose proof (bak_neq f) as Hne.
  rewrite update_file_outcome. outcome_cases;
    cbn [snd files log logged store];
    rewrite ?lookup_insert_ne by done; rewrite lookup_insert_eq;
    (split; [done|]); eexists; rewrite <- ?app_assoc; cbn [app]; reflexivity.
Qed.

Lemma process_file_overwrites_backup f c w :
  files w !! f = Some c → read_fault w f = None → write_fault w (bak f) = None →
  files (UpdateSql.process_file f w).2 !! bak f = Some (universal_newlines c)
  ∧ ∃ l, log (UpdateSql.process_file f w).2
         = log w ++ [Printed (Processing f); Read f;
                     Wrote (bak f) (universal_newlines c)] ++ l.
Proof.
  intros Hf Hr Hb. pose proof (bak_neq f) as Hne.
  rewrite process_file_outcome. outcome_cases;
    cbn [snd files log logged store];
    rewrite ?lookup_insert_ne by done; rewrite lookup_insert_eq;
    (split; [done|]); eexists; rewrite <- ?app_assoc; cbn [app]; reflexivity.
Qed.

Lemma fix_pass_no_CR c :
  CR ∉ c → CR ∉ (apply_mappings FixHandlers.COLUMN_MAPPINGS (c, 0)).1.
Proof. apply apply_mappings_keeps_out, COLUMN_MAPPINGS_no_CR. Qed.

Lemma sql_pass_no_CR c : CR ∉ c → CR ∉ (UpdateSql.update_sql_in_content c).1.
Proof. apply update_sql_keeps_out, REPLACEMENTS_no_CR. Qed.




(** ** More on the blocks *)

(** X1: a text without a backtick has no match and is returned as it is
    with a count of zero, whatever tokens it holds. *)
Theorem update_sql_no_backtick (m : list (text * text)) (content : text) :
  backtick ∉ content →
  UpdateSql.extract_sql_queries content = []
  ∧ UpdateSql.update_sql_in_content_with m content = (content, 0).
Proof.
  intros Hb. split.
  - by apply finditer_from_plain_nil.
  - by apply update_sql_plain.
Qed.

Lemma update_sql_no_backtick_witness :
  UpdateSql.extract_sql_queries (quoted "teamId") = []
  ∧ UpdateSql.update_sql_in_content_with UpdateSql.REPLACEMENTS (quoted "teamId")
    = (quoted "teamId", 0).
Proof.
  apply (update_sql_no_backtick UpdateSql.REPLACEMENTS (quoted "teamId")).
  apply (bool_decide_unpack _). reflexivity.
Defined.

(** X2: a text with an even number of backticks is closed: the result for
    it followed by another text is the two results one after the other,
    with the counts added. *)
Theorem update_sql_concat (m : list (text * text)) (pre s : text) :
  Nat.Even (backticks pre) →
  UpdateSql.update_sql_in_content_with m (pre ++ s)
  = ((UpdateSql.update_sql_in_content_with m pre).1
       ++ (UpdateSql.update_sql_in_content_with m s).1,
     (UpdateSql.update_sql_in_content_with m pre).2
     + (UpdateSql.update_sql_in_content_with m s).2).
Proof. apply update_sql_even_app. Qed.

Lemma update_sql_concat_witness :
  UpdateSql.update_sql_in_content_with UpdateSql.REPLACEMENTS
    ((backtick :: quoted "userId" ++ [backtick]) ++ (backtick :: quoted "teamId" ++ [backtick]))
  = ((UpdateSql.update_sql_in_content_with UpdateSql.REPLACEMENTS
        (backtick :: quoted "userId" ++ [backtick])).1
       ++ (UpdateSql.update_sql_in_content_with UpdateSql.REPLACEMENTS
             (backtick :: quoted "teamId" ++ [backtick])).1,
     (UpdateSql.update_sql_in_content_with UpdateSql.REPLACEMENTS
        (backtick :: quoted "userId" ++ [backtick])).2
     + (UpdateSql.update_sql_in_content_with UpdateSql.REPLACEMENTS
          (backtick :: quoted "teamId" ++ [backtick])).2).
Proof.
  apply (update_sql_concat UpdateSql.REPLACEMENTS (backtick :: quoted "userId" ++ [backtick])).
  exists 1. reflexivity.
Defined.

Lemma update_sql_count_sum_from (m : list (text * text)) (content : text) :
  ∀ pos,
    (UpdateSql.update_sql_in_content_with m content).2
    = sum_list_with (λ q : nat * nat * text, (apply_mappings m (q.2, 0)).2)
        (UpdateSql.finditer_from 0 pos content).
Proof.
  induction content as [p Hp|p tail Hp Htail|p body rest Hp Hbody IH] using block_ind;
    intros pos.
  - by rewrite update_sql_plain, finditer_from_plain_nil.
  - rewrite update_sql_unpaired, finditer_from_plain, finditer_from_unpaired by done.
    done.
  - rewrite update_sql_block, finditer_from_plain, finditer_from_block by done.
    cbn [snd sum_list_with]. rewrite <- IH. lia.
Qed.

(** X3: the count is the sum of the counts of the passes over the
    blocks. *)
Theorem update_sql_count_sum (m : list (text * text)) (content : text) :
  (UpdateSql.update_sql_in_content_with m content).2
  = sum_list_with (λ q : nat * nat * text, (apply_mappings m (q.2, 0)).2)
      (UpdateSql.extract_sql_queries content).
Proof. apply update_sql_count_sum_from. Qed.

Lemma fmap_sqls_ext {B} (g : text → B) (l1 l2 : list (nat * nat * text)) :
  l1.*2 = l2.*2 → (λ q, g q.2) <$> l1 = (λ q, g q.2) <$> l2.
Proof.
  intros H. change ((g ∘ snd) <$> l1 = (g ∘ snd) <$> l2).
  by rewrite !list_fmap_compose, H.
Qed.

Lemma update_sql_blocks_with (m : list (text * text)) (content : text) :
  wf_table m →
  backticks (UpdateSql.update_sql_in_content_with m content).1 = backticks content
  ∧ (UpdateSql.extract_sql_queries (UpdateSql.update_sql_in_content_with m content).1).*2
    = (λ q : nat * nat * text, (apply_mappings m (q.2, 0)).1)
        <$> UpdateSql.extract_sql_queries content.
Proof.
  intros Hwf.
  induction content as [p Hp|p tail Hp Htail|p body rest Hp Hbody [IH1 IH2]]
    using block_ind.
  - rewrite update_sql_plain by done. cbn [fst]. split; [done|].
    unfold UpdateSql.extract_sql_queries. rewrite finditer_from_plain_nil by done. done.
  - rewrite update_sql_unpaired by done. cbn [fst]. split; [done|].
    unfold UpdateSql.extract_sql_queries.
    rewrite finditer_from_plain, finditer_from_unpaired by done. done.
  - rewrite update_sql_block by done. cbn [fst].
    pose proof (apply_mappings_no_backtick m body 0 Hwf Hbody) as Hout.
    split.
    + rewrite !backticks_block by done. by rewrite IH1.
    + unfold UpdateSql.extract_sql_queries.
      rewrite !finditer_from_plain, !finditer_from_block by done.
      rewrite !fmap_cons. cbn [snd]. f_equal.
      rewrite finditer_from_sqls, IH2.
      apply (fmap_sqls_ext (λ t, (apply_mappings m (t, 0)).1)).
      by rewrite finditer_from_sqls.
Qed.

(** X4: the pass keeps the blocks in place: the output has the backticks
    of the input, and its blocks are the blocks of the input after the
    pass, in the same order. *)
Theorem update_sql_blocks (content : text) :
  backticks (UpdateSql.update_sql_in_content content).1 = backticks content
  ∧ (UpdateSql.extract_sql_queries (UpdateSql.update_sql_in_content content).1).*2
    = (λ q : nat * nat * text, (apply_mappings UpdateSql.REPLACEMENTS (q.2, 0)).1)
        <$> UpdateSql.extract_sql_queries content.
Proof. apply update_sql_blocks_with, REPLACEMENTS_wf. Qed.

(** ** Counting characters through [replace] *)

Lemma char_count_app (c : ascii) (a b : text) :
  length (filter (λ x, x = c) (a ++ b))
  = length (filter (λ x, x = c) a) + length (filter (λ x, x = c) b).
Proof. by rewrite filter_app, length_app. Qed.

(** Each replaced occurrence takes the characters of the old text away and
    brings those of the new text. *)
Lemma replace_from_chars (c : ascii) (old new : text) :
  old ≠ [] →
  ∀ s,
    length (filter (λ x, x = c) (replace_from old new 0 s))
    + count_from old 0 s * length (filter (λ x, x = c) old)
    = length (filter (λ x, x = c) s)
      + count_from old 0 s * length (filter (λ x, x = c) new).
Proof.
  intros Hne s. remember (length s) as k eqn:Hk. revert s Hk.
  induction k as [k IH] using lt_wf_ind. intros [|a s] ->; [done|].
  destruct (startswith old (a :: s)) eqn:Hsw.
  - apply startswith_spec in Hsw as [r Hr]. rewrite Hr.
    rewrite replace_from_match, count_from_match by done.
    rewrite !char_count_app.
    assert (length r < length (a :: s)) as Hlt.
    { rewrite Hr, length_app. destruct old; [done|]. simpl. lia. }
    pose proof (IH _ Hlt r eq_refl). lia.
  - rewrite replace_from_step, count_from_step by done.
    rewrite !filter_cons. pose proof (IH (length s) ltac:(simpl; lia) s eq_refl).
    destruct (decide (a = c)); cbn [length]; lia.
Qed.

Lemma dquotes_app a b : dquotes (a ++ b) = dquotes a + dquotes b.
Proof. apply char_count_app. Qed.

Lemma dquotes_cons c s :
  dquotes (c :: s) = (if decide (c = dquote) then 1 else 0) + dquotes s.
Proof. unfold dquotes. rewrite filter_cons. by destruct (decide (c = dquote)). Qed.

Lemma dquotes_plain s : dquote ∉ s → dquotes s = 0.
Proof.
  induction s as [|c s IH]; [done|]. intros [Hc Hs]%not_elem_of_cons.
  rewrite dquotes_cons, IH by done. by destruct (decide (c = dquote)).
Qed.

Lemma dquotes_tok X : dquote ∉ X → dquotes (tok X) = 2.
Proof.
  intros HX. unfold tok. rewrite dquotes_cons, dquotes_app, dquotes_plain by done.
  rewrite decide_True by done. done.
Qed.

(** One entry of a table of quoted names: every replacement takes two
    double quotes away. *)
Lemma replace_step_dquotes u n e :
  wf_entry e →
  dquotes (replace_step (u, n) e).1 + 2 * (replace_step (u, n) e).2 = dquotes u + 2 * n.
Proof.
  destruct e as [old new]. intros [Htok (HX & _ & HN & _)]. cbn [fst snd] in *.
  assert (old ≠ []) as Hne by (rewrite <- Htok; apply tok_nonempty).
  rewrite replace_step_unguarded by done. cbn [fst snd].
  destruct old as [|a old]; [done|]. cbn [str_replace str_count].
  pose proof (replace_from_chars dquote (a :: old) new Hne u) as H.
  fold (dquotes (replace_from (a :: old) new 0 u)) in H.
  fold (dquotes u) in H. fold (dquotes (a :: old)) in H. fold (dquotes new) in H.
  rewrite <- Htok, dquotes_tok, Htok, (dquotes_plain new) in H by done. lia.
Qed.

Lemma apply_mappings_dquotes m s n :
  wf_table m →
  dquotes (apply_mappings m (s, n)).1 + 2 * (apply_mappings m (s, n)).2
  = dquotes s + 2 * n.
Proof.
  intros Hwf. revert s n. induction Hwf as [|e m He Hm IH]; intros s n; [done|].
  cbn [apply_mappings fold_left].
  pose proof (replace_step_dquotes s n e He) as H.
  destruct (replace_step (s, n) e) as [u k]. cbn [fst snd] in H.
  pose proof (IH u k) as H'. unfold apply_mappings in H'. lia.
Qed.

Lemma update_sql_dquotes m s :
  wf_table m →
  dquotes (UpdateSql.update_sql_in_content_with m s).1
  + 2 * (UpdateSql.update_sql_in_content_with m s).2
  = dquotes s.
Proof.
  intros Hwf.
  induction s as [p Hp|p tail Hp Htail|p body rest Hp Hbody IH] using block_ind.
  - by rewrite update_sql_plain.
  - by rewrite update_sql_unpaired.
  - rewrite update_sql_block by done. cbn [fst snd].
    pose proof (apply_mappings_dquotes m body 0 Hwf) as H.
    rewrite !dquotes_app, !dquotes_cons, !dquotes_app, !dquotes_cons.
    lia.
Qed.

(** X5: the double quotes of the text account for the count: every
    replacement takes two double quotes away and nothing else adds or
    removes one, in the loop of [update_file] and in
    [update_sql_in_content]. *)
Theorem replacements_take_quotes (s : text) :
  (∀ w, ∃ out n w',
     FixHandlers.replace_loop FixHandlers.COLUMN_MAPPINGS (s, 0) w = (Ok (out, n), w')
     ∧ dquotes out + 2 * n = dquotes s)
  ∧ dquotes (UpdateSql.update_sql_in_content s).1
    + 2 * (UpdateSql.update_sql_in_content s).2
    = dquotes s.
Proof.
  split.
  - intros w. rewrite replace_loop_spec.
    pose proof (apply_mappings_dquotes _ s 0 COLUMN_MAPPINGS_wf) as H.
    destruct (apply_mappings FixHandlers.COLUMN_MAPPINGS (s, 0)) as [out n].
    exists out, n, (logged w (report FixHandlers.COLUMN_MAPPINGS (s, 0))).
    split; [done|]. cbn [fst snd] in H. lia.
  - apply update_sql_dquotes, REPLACEMENTS_wf.
Qed.

(** ** A count of zero *)

Lemma replace_step_zero u e :
  (replace_step (u, 0) e).2 = 0 → (replace_step (u, 0) e).1 = u.
Proof.
  destruct e as [old new]. unfold replace_step.
  destruct (0 <? str_count u old) eqn:Hc; [|done]. cbn [fst snd].
  apply Nat.ltb_lt in Hc. lia.
Qed.

Lemma apply_mappings_zero m s :
  (apply_mappings m (s, 0)).2 = 0 → (apply_mappings m (s, 0)).1 = s.
Proof.
  revert s. induction m as [|e m IH]; intros s; [done|].
  cbn [apply_mappings fold_left].
  pose proof (replace_step_zero s e) as He.
  destruct (replace_step (s, 0) e) as [u k]. cbn [fst snd] in He.
  fold (apply_mappings m (u, k)). rewrite apply_mappings_total. cbn [fst snd].
  intros H0. assert (k = 0) as -> by lia. assert (u = s) as -> by (by apply He).
  apply IH. lia.
Qed.

Lemma apply_mappings_unchanged m s :
  wf_table m → (apply_mappings m (s, 0)).2 = 0 ↔ (apply_mappings m (s, 0)).1 = s.
Proof.
  intros Hwf. split; [apply apply_mappings_zero|]. intros Heq.
  pose proof (apply_mappings_dquotes m s 0 Hwf) as H. rewrite Heq in H. lia.
Qed.

Lemma update_sql_zero m s :
  (UpdateSql.update_sql_in_content_with m s).2 = 0 →
  (UpdateSql.update_sql_in_content_with m s).1 = s.
Proof.
  induction s as [p Hp|p tail Hp Htail|p body rest Hp Hbody IH] using block_ind.
  - by rewrite update_sql_plain.
  - by rewrite update_sql_unpaired.
  - rewrite update_sql_block by done. cbn [fst snd]. intros H0.
    rewrite IH, apply_mappings_zero by lia. done.
Qed.

Lemma update_sql_unchanged m s :
  wf_table m →
  (UpdateSql.update_sql_in_content_with m s).2 = 0
  ↔ (UpdateSql.update_sql_in_content_with m s).1 = s.
Proof.
  intros Hwf. split; [apply update_sql_zero|]. intros Heq.
  pose proof (update_sql_dquotes m s Hwf) as H. rewrite Heq in H. lia.
Qed.

(** ** One file, further *)


(** X7: after a file was processed to the end no old token of the table
    is left in it: anywhere in it for the first script, in any of its
    blocks for the second. *)
Theorem no_old_token_left (filepath : string) (w : world) :
  (∀ n w', FixHandlers.update_file filepath w = (Ok n, w') →
           ∃ out, files w' !! filepath = Some out
                  ∧ token_free FixHandlers.COLUMN_MAPPINGS out)
  ∧ (∀ n w' out, UpdateSql.process_file filepath w = (Ok n, w') →
       files w' !! filepath = Some out →
       ∀ start end_ sql,
         (start, end_, sql) ∈ UpdateSql.extract_sql_queries out →
         token_free UpdateSql.REPLACEMENTS sql).
Proof.
  split.
  - intros n w' Hrun. outcome Hrun. cbn [files logged store]. eexists.
    split; [apply lookup_insert_eq|]. apply apply_mappings_clean, COLUMN_MAPPINGS_wf.
  - intros n w' out Hrun Hout start end_ sql Hin.
    outcome Hrun; cbn [files logged store] in Hout.
    + rewrite lookup_insert_eq in Hout. apply (inj Some) in Hout. subst out.
      assert (sql ∈ (UpdateSql.extract_sql_queries
                       (UpdateSql.update_sql_in_content (universal_newlines l)).1).*2)
        as Hsql.
      { apply list_elem_of_fmap. by exists (start, end_, sql). }
      unfold UpdateSql.update_sql_in_content in Hsql.
      rewrite (proj2 (update_sql_blocks_with _ _ REPLACEMENTS_wf)) in Hsql.
      apply list_elem_of_fmap in Hsql as (q & -> & _).
      apply apply_mappings_clean, REPLACEMENTS_wf.
    + congruence.
Qed.

(** ** The printed counts *)

Lemma replaced_total_app l1 l2 :
  replaced_total (l1 ++ l2) = replaced_total l1 + replaced_total l2.
Proof.
  induction l1 as [|e l1 IH]; [done|]. cbn [app replaced_total].
  destruct e as [[]| | | |]; rewrite ?IH; lia.
Qed.

Lemma replaced_total_report m s n :
  replaced_total (report m (s, n)) + n = (apply_mappings m (s, n)).2.
Proof.
  revert s n. induction m as [|[old new] m IH]; intros s n; [done|].
  cbn [report apply_mappings fold_left fst]. rewrite replaced_total_app.
  fold (apply_mappings m (replace_step (s, n) (old, new))).
  pose proof (IH (replace_step (s, n) (old, new)).1 (replace_step (s, n) (old, new)).2)
    as H.
  rewrite <- surjective_pairing in H. rewrite <- H.
  unfold replace_step at 3. destruct (0 <? str_count s old); cbn; lia.
Qed.

Lemma replaced_lines_add_up_with m (filepath : string) (w : world) (n : nat) (w' : world) :
  FixHandlers.update_file_with m filepath w = (Ok n, w') →
  replaced_total (log w') = replaced_total (log w) + n
  ∧ ∃ l, log w' = log w ++ l ++ [Printed (Updated filepath n)].
Proof.
  intros Hrun. outcome Hrun. cbn [log logged store]. split.
  - rewrite !replaced_total_app. cbn [replaced_total].
    pose proof (replaced_total_report m (universal_newlines l) 0). lia.
  - exists ([Printed (Processing filepath); Read filepath;
             Wrote (bak filepath) (universal_newlines l)]
            ++ report m (universal_newlines l, 0)
            ++ [Wrote filepath (apply_mappings m (universal_newlines l, 0)).1]).
    by rewrite <- !app_assoc.
Qed.

(** X8: the counts of the [Replaced] lines printed for a file add up to
    the number of the [Updated] line, which is the number returned. *)
Theorem replaced_lines_add_up (filepath : string) (w : world) (n : nat) (w' : world) :
  FixHandlers.update_file filepath w = (Ok n, w') →
  replaced_total (log w') = replaced_total (log w) + n
  ∧ ∃ l, log w' = log w ++ l ++ [Printed (Updated filepath n)].
Proof. apply replaced_lines_add_up_with. Qed.

Lemma replaced_lines_add_up_witness :
  replaced_total
    (log (FixHandlers.update_file "internal/handlers/handlers.go"
            (World {[ "internal/handlers/handlers.go"%string := example_in ]}
               (λ _, None) (λ _, None) [])).2)
  = replaced_total [] + 2
  ∧ ∃ l, log (FixHandlers.update_file "internal/handlers/handlers.go"
                (World {[ "internal/handlers/handlers.go"%string := example_in ]}
                   (λ _, None) (λ _, None) [])).2
         = [] ++ l ++ [Printed (Updated "internal/handlers/handlers.go" 2)].
Proof.
  apply (replaced_lines_add_up "internal/handlers/handlers.go"
           (World {[ "internal/handlers/handlers.go"%string := example_in ]}
              (λ _, None) (λ _, None) []) 2).
  by vm_compute.
Defined.

(** ** Whole runs, further *)

(** What [process_file] raises is not [SystemExit], and what it printed
    last before it raised is the [Processing] line of the file. *)
Lemma process_file_raise f w e w' :
  UpdateSql.process_file f w = (Raise e, w') →
  (∀ code, e ≠ SystemExit code)
  ∧ ∃ l, log w' = log w ++ Printed (Processing f) :: l ∧ ∀ ln, Printed ln ∉ l.
Proof.
  intros Hrun. outcome Hrun; (split; [done|]); cbn [log logged store].
  - exists []. split; [done|]. intros ln. apply not_elem_of_nil.
  - eexists [_]. split; [done|]. intros ln ?%list_elem_of_singleton. done.
  - eexists [_]. split; [done|]. intros ln ?%list_elem_of_singleton. done.
  - eexists [_; _]. split; [by rewrite <- app_assoc|].
    intros ln Hin. repeat (apply elem_of_cons in Hin as [?|Hin]; [done|]).
    by apply elem_of_nil in Hin.
  - eexists [_; _]. split; [by rewrite <- app_assoc|].
    intros ln Hin. repeat (apply elem_of_cons in Hin as [?|Hin]; [done|]).
    by apply elem_of_nil in Hin.
  - eexists [_; _]. split; [by rewrite <- app_assoc|].
    intros ln Hin. repeat (apply elem_of_cons in Hin as [?|Hin]; [done|]).
    by apply elem_of_nil in Hin.
  - eexists [_; _; _]. split; [by rewrite <- !app_assoc|].
    intros ln Hin. repeat (apply elem_of_cons in Hin as [?|Hin]; [done|]).
    by apply elem_of_nil in Hin.
Qed.

(** X9: when [update_file] raises an exception other than
    [FileNotFoundError] for a listed file, the first script prints the
    file and the exception and the run ends there with exit status 1; when
    [process_file] raises an exception, the second script ends there with
    the traceback of the exception and exit status 1, the file being the
    one of the last line printed.  The final world is the one in which the
    exception was raised: no later file is touched. *)
Theorem exception_ends_run (before after : list string)
    (filepath : string) (w : world) :
  handler_files = before ++ filepath :: after →
  (∀ t1 w1 w2 msg,
     FixHandlers.main_loop before 0 w = (Ok t1, w1) →
     FixHandlers.update_file filepath w1 = (Raise (OtherException msg), w2) →
     run_script FixHandlers.main w
     = (1, logged w2 [Printed (ErrorProcessing filepath (OtherException msg))]))
  ∧ (∀ t1 w1 w2 e,
       UpdateSql.main_loop before 0 w = (Ok t1, w1) →
       UpdateSql.process_file filepath w1 = (Raise e, w2) →
       run_script UpdateSql.main w = (1, logged w2 [Traceback e])
       ∧ ∃ l, log w2 = log w1 ++ Printed (Processing filepath) :: l
              ∧ ∀ ln, Printed ln ∉ l).
Proof.
  intros Hfiles. split.
  - intros t1 w1 w2 msg Hbefore Hfail.
    unfold run_script, FixHandlers.main. unfold mbind, io_bind, bind at 1.
    rewrite Hfiles, fix_main_loop_app, Hbefore.
    cbn [FixHandlers.main_loop]. unfold mbind, io_bind, bind at 1.
    rewrite try_update_outcome, Hfail. done.
  - intros t1 w1 w2 e Hbefore Hfail.
    destruct (process_file_raise _ _ _ _ Hfail) as [He Hlog]. split; [|done].
    unfold run_script, UpdateSql.main. unfold mbind, io_bind, bind at 1.
    rewrite Hfiles, sql_main_loop_app, Hbefore.
    cbn [UpdateSql.main_loop]. unfold mbind, io_bind, bind at 1.
    rewrite Hfail. destruct e as [| |code]; [done..|]. by destruct (He code).
Qed.

(** A world with the first handler file only, which cannot be read. *)
Lemma exception_ends_run_witness :
  let w := World {[ "internal/handlers/handlers.go"%string := example_in ]}
             (λ _, Some "Permission denied"%string) (λ _, None) [] in
  run_script FixHandlers.main w
  = (1, logged w [Printed (Processing "internal/handlers/handlers.go");
                  Printed (ErrorProcessing "internal/handlers/handlers.go"
                             (OtherException "Permission denied"))])
  ∧ run_script UpdateSql.main w
    = (1, logged w [Printed (Processing "internal/handlers/handlers.go");
                    Traceback (OtherException "Permission denied")]).
Proof.
  intros w.
  destruct (exception_ends_run [] (drop 1 handler_files)
              "internal/handlers/handlers.go" w) as [H1 H2].
  - reflexivity.
  - split.
    + rewrite (H1 0 w (logged w [Printed (Processing "internal/handlers/handlers.go")])
                 "Permission denied"); [reflexivity | reflexivity | reflexivity].
    + destruct (H2 0 w (logged w [Printed (Processing "internal/handlers/handlers.go")])
                  (OtherException "Permission denied"))
        as [-> _]; [reflexivity | reflexivity | reflexivity].
Defined.



(** ** The total of a run *)

Lemma sum_list_with_ext_in {A} (a b : A → nat) (l : list A) :
  (∀ x, x ∈ l → a x = b x) → sum_list_with a l = sum_list_with b l.
Proof.
  induction l as [|x l IH]; intros H; [done|]. cbn [sum_list_with].
  rewrite (H x) by (by left). rewrite IH; [done|]. intros y Hy. apply H. by right.
Qed.

Section Totals.
Variables (body : string → nat → io nat) (pass : text → text)
  (count : text → text * nat).
Hypothesis body_spec : ∀ f t w, turn_spec pass f w (body f t w).
Hypothesis body_clean : ∀ f t w,
  read_fault w f = None → write_fault w (bak f) = None → write_fault w f = None →
  (body f t w).1 = Ok (t + file_count count w f).

(** A loop in which no listed file meets a failure returns the total it
    started with and what each file adds. *)
Lemma for_each_total l t w :
  separate l →
  (∀ f, f ∈ l → read_fault w f = None
                ∧ write_fault w (bak f) = None ∧ write_fault w f = None) →
  (for_each body l t w).1 = Ok (t + sum_list_with (file_count count w) l).
Proof.
  revert t w. induction l as [|g l IH]; intros t w Hsep Hok.
  - cbn. f_equal. lia.
  - pose proof (separate_head g l Hsep) as (Hg1 & Hg2 & Hg3 & Hg4 & Hg5).
    rewrite for_each_cons.
    destruct (body_spec g t w) as (Hfr & Hfw & Hframe & _).
    destruct (Hok g ltac:(by left)) as (Hr & Hb & Hw).
    pose proof (body_clean g t w Hr Hb Hw) as Hg.
    destruct (body g t w) as [r w'] eqn:E. cbn [fst snd] in *. subst r.
    rewrite IH.
    + cbn [sum_list_with]. f_equal.
      rewrite (sum_list_with_ext_in (file_count count w') (file_count count w) l);
        [lia|].
      intros f Hf. unfold file_count. destruct (Hg5 f Hf) as [? ?].
      by rewrite Hframe.
    + by eapply separate_cons.
    + intros f Hf. rewrite Hfr, Hfw. apply Hok. by right.
Qed.

End Totals.

Lemma try_update_with_clean m f t w :
  read_fault w f = None → write_fault w (bak f) = None → write_fault w f = None →
  (match FixHandlers.update_file_with m f w with
   | (Ok count, w') => (Ok (t + count), w')
   | (Raise FileNotFoundError, w') =>
       (Ok t, logged w' [Printed (WarningNotFound f)])
   | (Raise (OtherException msg), w') =>
       (Raise (SystemExit 1),
        logged w' [Printed (ErrorProcessing f (OtherException msg))])
   | (Raise (SystemExit code), w') => (Raise (SystemExit code), w')
   end).1
  = Ok (t + file_count (λ c, apply_mappings m (c, 0)) w f).
Proof.
  intros Hr Hb Hw. rewrite update_file_outcome. unfold file_count.
  outcome_cases; cbn [fst]; [done|]. f_equal. lia.
Qed.

Lemma try_update_clean f t w :
  read_fault w f = None → write_fault w (bak f) = None → write_fault w f = None →
  (FixHandlers.try_update f t w).1
  = Ok (t + file_count (λ c, apply_mappings FixHandlers.COLUMN_MAPPINGS (c, 0)) w f).
Proof. rewrite try_update_outcome. apply try_update_with_clean. Qed.

Lemma add_count_clean f t w :
  read_fault w f = None → write_fault w (bak f) = None → write_fault w f = None →
  (add_count f t w).1 = Ok (t + file_count UpdateSql.update_sql_in_content w f).
Proof.
  intros Hr Hb Hw. unfold add_count, mbind, io_bind, bind, ret.
  rewrite process_file_outcome. unfold file_count.
  outcome_cases; cbn [fst]; done.
Qed.



(** ** The count and the occurrences *)

Lemma sum_list_with_map {A B} (f : B → nat) (g : A → B) (l : list A) :
  sum_list_with f (map g l) = sum_list_with (λ x, f (g x)) l.
Proof. induction l as [|x l IH]; [done|]. cbn. by rewrite IH. Qed.

(** On a text in which no two old tokens overlap the total of a pass is
    the number of occurrences of the old tokens in the text before the
    pass: what [count] gives for each of them there, added up. *)
Lemma apply_mappings_occurrences (m : list (text * text)) s n :
  wf_table m → NoDup (names m).*1 → overlap_free m s →
  (apply_mappings m (s, n)).2 = n + sum_list_with (λ e, str_count s e.1) m.
Proof.
  intros Hwf Hnd Hfree.
  apply wf_table_names in Hwf as [Hm Hnm].
  destruct (text_words s) as ([h rest] & -> & Hplain).
  assert (no_adjacent (λ x, x ∈ (names m).*1) rest) as Hadj.
  { apply (overlap_free_no_adjacent _ h). by rewrite Hm. }
  assert (∀ x, x ∈ (names m).*1 → underscore ∉ x) as HD.
  { intros x ([X N] & -> & Hin)%list_elem_of_fmap.
    by destruct (proj1 (Forall_forall _ _) Hnm _ Hin) as (_ & ? & _). }
  rewrite <- (replace_all_words_empty h rest) at 1.
  rewrite <- Hm at 1.
  rewrite (apply_mappings_all (λ x, x ∈ (names m).*1) (names m)); try done.
  cbn [snd]. f_equal. rewrite <- Hm at 2. unfold tokens_of.
  rewrite sum_list_with_map. apply sum_list_with_ext_in.
  intros [X N] Hin. cbn [fst snd].
  destruct (proj1 (Forall_forall _ _) Hnm _ Hin) as (HX & _). cbn [fst] in HX.
  destruct Hplain as [Hh Hrest]. cbn [fst snd] in Hh, Hrest.
  change (str_count (join (h, rest)) (tok X))
    with (count_from (tok X) 0 (join (h, rest))).
  rewrite count_from_words by done.
  assert (∀ x N : text, (∅ : gmap text text) !! x = Some N → underscore ∈ N) as H1
    by (intros x N' H; by rewrite lookup_empty in H).
  assert (∀ x N : text, (∅ : gmap text text) !! x = Some N → x ∈ (names m).*1) as H2
    by (intros x N' H; by rewrite lookup_empty in H).
  assert (X ∈ (names m).*1) as H3 by (apply list_elem_of_fmap; by exists (X, N)).
  rewrite <- (count_words_all ∅ H1 (λ x, x ∈ (names m).*1) X HD H2 H3
                (lookup_empty X) h rest Hadj).
  by rewrite replace_all_words_empty.
Qed.

(** X12: on a text in which no two old tokens overlap, the total is the
    number of occurrences of the old tokens in the text as it was: what
    [count] gives there for each entry, added up; in delimited mode, the
    same for each block. *)
Theorem count_is_occurrences (s : text) :
  overlap_free FixHandlers.COLUMN_MAPPINGS s →
  (∀ w, ∃ out w',
     FixHandlers.replace_loop FixHandlers.COLUMN_MAPPINGS (s, 0) w
     = (Ok (out, sum_list_with (λ e, str_count s e.1) FixHandlers.COLUMN_MAPPINGS), w'))
  ∧ (UpdateSql.update_sql_in_content s).2
    = sum_list_with
        (λ q : nat * nat * text,
           sum_list_with (λ e, str_count q.2 e.1) UpdateSql.REPLACEMENTS)
        (UpdateSql.extract_sql_queries s).
Proof.
  intros Hfree. split.
  - intros w. rewrite replace_loop_spec.
    pose proof (apply_mappings_occurrences _ s 0 COLUMN_MAPPINGS_wf
                  COLUMN_MAPPINGS_names_NoDup Hfree) as H.
    destruct (apply_mappings FixHandlers.COLUMN_MAPPINGS (s, 0)) as [out n].
    cbn [snd Nat.add] in H. subst n. by eexists _, _.
  - unfold UpdateSql.update_sql_in_content, UpdateSql.extract_sql_queries.
    rewrite (update_sql_count_sum_from _ _ 0).
    apply sum_list_with_ext_in. intros [[start end_] sql] Hin. cbn [snd].
    apply finditer_from_spec in Hin as (a & b & -> & _).
    rewrite apply_mappings_occurrences; [done|apply REPLACEMENTS_wf|
      apply REPLACEMENTS_names_NoDup|].
    apply (overlap_free_perm FixHandlers.COLUMN_MAPPINGS); [apply REPLACEMENTS_perm|].
    apply (overlap_free_infix _ (a ++ [backtick]) sql (backtick :: b)).
    by rewrite <- app_assoc.
Qed.

Lemma count_is_occurrences_witness :
  (UpdateSql.update_sql_in_content (backtick :: quoted "userId" ++ [backtick])).2
  = sum_list_with
      (λ q : nat * nat * text,
         sum_list_with (λ e, str_count q.2 e.1) UpdateSql.REPLACEMENTS)
      (UpdateSql.extract_sql_queries (backtick :: quoted "userId" ++ [backtick])).
Proof.
  apply (count_is_occurrences (backtick :: quoted "userId" ++ [backtick])).
  apply overlap_check_sound. apply (bool_decide_unpack _). by vm_compute.
Defined.

(** X13: the two scripts do the same to a block: for a text without a
    backtick in which no two old tokens overlap, the second script turns
    the text between two backticks into what the loop of the first script
    makes of the text, between two backticks, with the same count. *)
Theorem scripts_agree_on_block (body : text) :
  backtick ∉ body → overlap_free FixHandlers.COLUMN_MAPPINGS body →
  ∀ w, ∃ out n w',
    FixHandlers.replace_loop FixHandlers.COLUMN_MAPPINGS (body, 0) w = (Ok (out, n), w')
    ∧ UpdateSql.update_sql_in_content (backtick :: body ++ [backtick])
      = (backtick :: out ++ [backtick], n).
Proof.
  intros Hbody Hfree w. rewrite replace_loop_spec.
  pose proof (update_sql_block UpdateSql.REPLACEMENTS [] body []
                (not_elem_of_nil _) Hbody) as H.
  rewrite (update_sql_plain _ [] (not_elem_of_nil _)) in H. cbn [fst snd app Nat.add] in H.
  rewrite (apply_mappings_perm FixHandlers.COLUMN_MAPPINGS UpdateSql.REPLACEMENTS)
    in H; [|apply COLUMN_MAPPINGS_wf|apply COLUMN_MAPPINGS_names_NoDup
           |apply REPLACEMENTS_perm|done].
  destruct (apply_mappings FixHandlers.COLUMN_MAPPINGS (body, 0)) as [out n].
  exists out, n, (logged w (report FixHandlers.COLUMN_MAPPINGS (body, 0))).
  split; [done|]. exact H.
Qed.

Lemma scripts_agree_on_block_witness :
  ∃ out n w',
    FixHandlers.replace_loop FixHandlers.COLUMN_MAPPINGS (quoted "userId", 0)
      (World ∅ (λ _, None) (λ _, None) []) = (Ok (out, n), w')
    ∧ UpdateSql.update_sql_in_content (backtick :: quoted "userId" ++ [backtick])
      = (backtick :: out ++ [backtick], n).
Proof.
  apply (scripts_agree_on_block (quoted "userId")).
  - apply (bool_decide_unpack _). reflexivity.
  - apply overlap_check_sound. apply (bool_decide_unpack _). by vm_compute.
Defined.

(** ** How a run ends *)

(** [update_file] raises [FileNotFoundError] or an exception with a
    message, never [SystemExit]. *)
Lemma update_file_raise m f w e w' :
  FixHandlers.update_file_with m f w = (Raise e, w') → ∀ code, e ≠ SystemExit code.
Proof. intros Hrun. by outcome Hrun. Qed.

(** The loop of the first script stops on [SystemExit] with code 1 only,
    right after it printed the file and the exception. *)
Lemma fix_main_loop_raise l t w e w' :
  FixHandlers.main_loop l t w = (Raise e, w') →
  e = SystemExit 1
  ∧ ∃ l0 f msg, f ∈ l
      ∧ log w' = l0 ++ [Printed (ErrorProcessing f (OtherException msg))].
Proof.
  revert t w. induction l as [|g l IH]; intros t w; [done|].
  cbn [FixHandlers.main_loop]. unfold mbind, io_bind, bind at 1.
  rewrite try_update_outcome.
  destruct (FixHandlers.update_file g w) as [[count|[|msg|code]] w1] eqn:Hg.
  - intros Hrun. destruct (IH _ _ Hrun) as (-> & l0 & f & msg & Hf & Hlog).
    split; [done|]. exists l0, f, msg. split; [by right|done].
  - intros Hrun. destruct (IH _ _ Hrun) as (-> & l0 & f & msg & Hf & Hlog).
    split; [done|]. exists l0, f, msg. split; [by right|done].
  - intros [= <- <-]. split; [done|]. exists (log w1), g, msg. split; [by left|done].
  - by destruct (update_file_raise _ _ _ _ _ Hg code).
Qed.

(** The loop of the second script stops on what [process_file] raised,
    which is not [SystemExit]. *)
Lemma sql_main_loop_raise l t w e w' :
  UpdateSql.main_loop l t w = (Raise e, w') → ∀ code, e ≠ SystemExit code.
Proof.
  revert t w. induction l as [|g l IH]; intros t w; [done|].
  cbn [UpdateSql.main_loop]. unfold mbind, io_bind, bind at 1.
  destruct (UpdateSql.process_file g w) as [[count|e1] w1] eqn:Hg.
  - apply IH.
  - intros [= <- <-]. by destruct (process_file_raise _ _ _ _ Hg).
Qed.


(** ** Further instances *)

Lemma token_free_check (m : list (text * text)) (s : text) :
  Forall (λ e : text * text, str_count s e.1 = 0) m → token_free m s.
Proof.
  intros Hc old new Hin. apply str_count_zero.
  apply (proj1 (Forall_forall _ _) Hc _ Hin).
Qed.

(** C7 for the output of the example. *)
Lemma C7_no_token_no_change_witness :
  (∀ w, FixHandlers.replace_loop FixHandlers.COLUMN_MAPPINGS (example_out, 0) w
        = (Ok (example_out, 0), w))
  ∧ UpdateSql.update_sql_in_content example_out = (example_out, 0).
Proof.
  destruct (C7_no_token_no_change example_out) as [H1 H2]. split.
  - apply H1. apply token_free_check. apply (bool_decide_unpack _). by vm_compute.
  - apply H2. apply token_free_check. apply (bool_decide_unpack _). by vm_compute.
Defined.

(** C4 for the example: the second pass over its output. *)
Lemma C4_idempotent_witness :
  let w := World ∅ (λ _, None) (λ _, None) [] in
  FixHandlers.replace_loop FixHandlers.COLUMN_MAPPINGS (example_out, 0) w
  = (Ok (example_out, 0), w).
Proof.
  intros w.
  refine (proj1 (C4_idempotent example_in) w example_out 2
            (FixHandlers.replace_loop FixHandlers.COLUMN_MAPPINGS (example_in, 0) w).2 _ w).
  by vm_compute.
Defined.

